(** * The dual-mode wormhole facade (src/wormhole/wormhole.py)

    A shallow embedding of [_DelegatedWormhole] and [_DeferredWormhole]
    together with the part of Twisted's [Deferred] they rely on, and the
    properties of the event interface proved over it.

    A Deferred is a heap object with an identity; the observer lists hold
    references.  Calling a Deferred runs, synchronously, the continuation
    the consumer attached to it, and that continuation may call back into
    the frontend: the loops of [got_code], [got_verifier] and [closed] are
    therefore modelled over the live list, with fuel. *)

From stdpp Require Import gmap list strings relations.
From Stdlib Require Import ZArith Lia.

Open Scope Z_scope.
Open Scope nat_scope.

(** ** Python values *)

(** The values that travel through the facade.  [PWormholeError] stands for
    an instance of [WormholeError] (imported from [._boss]) or of one of its
    subclasses; [PWormholeClosed] is the class defined in this file, which
    derives from [Exception] and not from [WormholeError]. *)
Inductive PyVal :=
| PNone
| PInt (n : Z)
| PStr (s : string)
| PBytes (b : list Z)
| PObject (name : string)
| PException (name : string)
| PWormholeError (msg : string)
| PWormholeClosed (arg : PyVal).

(** Python truth value, as tested by [if self._code:]. *)
Definition truthy (v : PyVal) : bool :=
  match v with
  | PNone => false
  | PInt n => negb (Z.eqb n 0)
  | PStr s => negb (String.eqb s "")
  | PBytes b => match b with [] => false | _ => true end
  | _ => true
  end.

(** [isinstance(v, WormholeError)]. *)
Definition isinstance_WormholeError (v : PyVal) : bool :=
  match v with PWormholeError _ => true | _ => false end.

(** The module-level [_log] function, default [logger] of
    [debug_set_trace]. *)
Definition _log : PyVal := PObject "_log".

(** ** The Boss, seen from the facade: the calls it receives *)

Module Boss.
Inductive call :=
| allocate_code (code_length : PyVal)
| input_code (stdio : PyVal)
| set_code (code : PyVal)
| send (plaintext : PyVal)
| close
| set_trace (client_name which logger : PyVal)
| _set_trace (client_name which logger : PyVal).
End Boss.

(** ** The delegate, seen from the facade *)

Module Delegate.
Inductive call :=
| wormhole_got_code (code : PyVal)
| wormhole_got_verifier (verifier : PyVal)
| wormhole_received (plaintext : PyVal)
| wormhole_closed (result : PyVal).
End Delegate.

(** ** [_DelegatedWormhole] *)

Module _DelegatedWormhole.
(** The object's two collaborators, each as the list of calls it has
    received so far, oldest first. *)
Record t := mk { _boss : list Boss.call; _delegate : list Delegate.call }.

Definition to_boss (c : Boss.call) (w : t) : t :=
  {| _boss := _boss w ++ [c]; _delegate := _delegate w |}.
Definition to_delegate (c : Delegate.call) (w : t) : t :=
  {| _boss := _boss w; _delegate := _delegate w ++ [c] |}.

Definition allocate_code (code_length : option PyVal) : t → t :=
  to_boss (Boss.allocate_code (default (PInt 2) code_length)).
Definition input_code (stdio : PyVal) : t → t :=
  to_boss (Boss.input_code stdio).
Definition set_code (code : PyVal) : t → t :=
  to_boss (Boss.set_code code).
Definition send (plaintext : PyVal) : t → t :=
  to_boss (Boss.send plaintext).
Definition close : t → t :=
  to_boss Boss.close.
Definition debug_set_trace (client_name : PyVal) (which logger : option PyVal)
  : t → t :=
  to_boss (Boss.set_trace client_name
             (default (PStr "B N M S O K R RC NL C T") which)
             (default _log logger)).

Definition got_code (code : PyVal) : t → t :=
  to_delegate (Delegate.wormhole_got_code code).
Definition got_verifier (verifier : PyVal) : t → t :=
  to_delegate (Delegate.wormhole_got_verifier verifier).
Definition received (plaintext : PyVal) : t → t :=
  to_delegate (Delegate.wormhole_received plaintext).
Definition closed (result : PyVal) : t → t :=
  to_delegate (Delegate.wormhole_closed result).
End _DelegatedWormhole.

(** ** Twisted's Deferred and the state of a [_DeferredWormhole] *)

(** A Deferred is a heap object; the observer lists hold references to it. *)
Definition Did := nat.

(** What a Deferred was fired with: [callback(v)] or [errback(e)]. *)
Inductive Outcome := Success (v : PyVal) | Failure (e : PyVal).

Inductive Exn := AlreadyCalledError.

(** The frontend calls a consumer can make; also the language of the
    continuations a consumer attaches to a future, which call back into the
    frontend.  [run_calls] runs a continuation that drops what its calls
    return; [run_handler] runs one that attaches itself again to the
    futures it obtains. *)
Inductive Call :=
| CWhenCode
| CWhenVerifier
| CWhenReceived
| CAllocateCode (code_length : option PyVal)
| CInputCode (stdio : PyVal)
| CSetCode (code : PyVal)
| CSend (plaintext : PyVal)
| CClose
| CDebugSetTrace (client_name : PyVal) (which logger : option PyVal).

(** The four observer lists of a [_DeferredWormhole]. *)
Inductive Chan := ChCode | ChVerifier | ChReceived | ChClosed.

(** The [_DeferredWormhole] object (the seven attributes set by [__init__]
    and [_boss]), the Deferreds it has created, and its standard output.
    - [results]: the Deferreds already called, with what they were called
      with; a Deferred absent from the map is still pending;
    - [callbacks]: the continuation attached to a pending Deferred;
    - [next_id]: the next fresh Deferred;
    - [fired]: every effective [callback]/[errback], oldest first. *)
Record World := mkWorld {
  _code : PyVal;
  _code_observers : list Did;
  _verifier : PyVal;
  _verifier_observers : list Did;
  _received_data : list PyVal;
  _received_observers : list Did;
  _closed_observers : list Did;
  _boss : list Boss.call;
  results : gmap Did Outcome;
  callbacks : gmap Did (list Call);
  next_id : Did;
  fired : list (Did * Outcome);
  stdout : list PyVal
}.

(** [_DeferredWormhole.__init__], before any Deferred exists. *)
Definition init : World :=
  {| _code := PNone; _code_observers := [];
     _verifier := PNone; _verifier_observers := [];
     _received_data := []; _received_observers := [];
     _closed_observers := []; _boss := [];
     results := ∅; callbacks := ∅; next_id := 0; fired := []; stdout := [] |}.

(** *** Elementary updates *)

Definition with_code (c : PyVal) (w : World) : World :=
  {| _code := c; _code_observers := _code_observers w;
     _verifier := _verifier w; _verifier_observers := _verifier_observers w;
     _received_data := _received_data w;
     _received_observers := _received_observers w;
     _closed_observers := _closed_observers w; _boss := _boss w;
     results := results w; callbacks := callbacks w; next_id := next_id w;
     fired := fired w; stdout := stdout w |}.

Definition with_verifier (v : PyVal) (w : World) : World :=
  {| _code := _code w; _code_observers := _code_observers w;
     _verifier := v; _verifier_observers := _verifier_observers w;
     _received_data := _received_data w;
     _received_observers := _received_observers w;
     _closed_observers := _closed_observers w; _boss := _boss w;
     results := results w; callbacks := callbacks w; next_id := next_id w;
     fired := fired w; stdout := stdout w |}.

Definition with_code_observers (l : list Did) (w : World) : World :=
  {| _code := _code w; _code_observers := l;
     _verifier := _verifier w; _verifier_observers := _verifier_observers w;
     _received_data := _received_data w;
     _received_observers := _received_observers w;
     _closed_observers := _closed_observers w; _boss := _boss w;
     results := results w; callbacks := callbacks w; next_id := next_id w;
     fired := fired w; stdout := stdout w |}.

Definition with_verifier_observers (l : list Did) (w : World) : World :=
  {| _code := _code w; _code_observers := _code_observers w;
     _verifier := _verifier w; _verifier_observers := l;
     _received_data := _received_data w;
     _received_observers := _received_observers w;
     _closed_observers := _closed_observers w; _boss := _boss w;
     results := results w; callbacks := callbacks w; next_id := next_id w;
     fired := fired w; stdout := stdout w |}.

Definition with_received_data (l : list PyVal) (w : World) : World :=
  {| _code := _code w; _code_observers := _code_observers w;
     _verifier := _verifier w; _verifier_observers := _verifier_observers w;
     _received_data := l;
     _received_observers := _received_observers w;
     _closed_observers := _closed_observers w; _boss := _boss w;
     results := results w; callbacks := callbacks w; next_id := next_id w;
     fired := fired w; stdout := stdout w |}.

Definition with_received_observers (l : list Did) (w : World) : World :=
  {| _code := _code w; _code_observers := _code_observers w;
     _verifier := _verifier w; _verifier_observers := _verifier_observers w;
     _received_data := _received_data w;
     _received_observers := l;
     _closed_observers := _closed_observers w; _boss := _boss w;
     results := results w; callbacks := callbacks w; next_id := next_id w;
     fired := fired w; stdout := stdout w |}.

Definition with_closed_observers (l : list Did) (w : World) : World :=
  {| _code := _code w; _code_observers := _code_observers w;
     _verifier := _verifier w; _verifier_observers := _verifier_observers w;
     _received_data := _received_data w;
     _received_observers := _received_observers w;
     _closed_observers := l; _boss := _boss w;
     results := results w; callbacks := callbacks w; next_id := next_id w;
     fired := fired w; stdout := stdout w |}.

(** [self._boss.<method>(...)]: the Boss receives one more call. *)
Definition to_boss (c : Boss.call) (w : World) : World :=
  {| _code := _code w; _code_observers := _code_observers w;
     _verifier := _verifier w; _verifier_observers := _verifier_observers w;
     _received_data := _received_data w;
     _received_observers := _received_observers w;
     _closed_observers := _closed_observers w; _boss := _boss w ++ [c];
     results := results w; callbacks := callbacks w; next_id := next_id w;
     fired := fired w; stdout := stdout w |}.

(** [print("closed", result, type(result))]. *)
Definition print (v : PyVal) (w : World) : World :=
  {| _code := _code w; _code_observers := _code_observers w;
     _verifier := _verifier w; _verifier_observers := _verifier_observers w;
     _received_data := _received_data w;
     _received_observers := _received_observers w;
     _closed_observers := _closed_observers w; _boss := _boss w;
     results := results w; callbacks := callbacks w; next_id := next_id w;
     fired := fired w; stdout := stdout w ++ [v] |}.

(** The Twisted side of the state. *)
Definition with_heap (r : gmap Did Outcome) (cb : gmap Did (list Call))
    (n : Did) (f : list (Did * Outcome)) (w : World) : World :=
  {| _code := _code w; _code_observers := _code_observers w;
     _verifier := _verifier w; _verifier_observers := _verifier_observers w;
     _received_data := _received_data w;
     _received_observers := _received_observers w;
     _closed_observers := _closed_observers w; _boss := _boss w;
     results := r; callbacks := cb; next_id := n; fired := f;
     stdout := stdout w |}.

(** The observer list of a channel, and the same list replaced. *)
Definition obs (ch : Chan) (w : World) : list Did :=
  match ch with
  | ChCode => _code_observers w
  | ChVerifier => _verifier_observers w
  | ChReceived => _received_observers w
  | ChClosed => _closed_observers w
  end.

Definition with_obs (ch : Chan) (l : list Did) (w : World) : World :=
  match ch with
  | ChCode => with_code_observers l w
  | ChVerifier => with_verifier_observers l w
  | ChReceived => with_received_observers l w
  | ChClosed => with_closed_observers l w
  end.

(** All the Deferreds the object holds a reference to. *)
Definition waiters (w : World) : list Did :=
  _code_observers w ++ _verifier_observers w ++ _received_observers w
    ++ _closed_observers w.

(** ** A state and exception monad *)

(** A call returns a value, or raises leaving the mutations made so far in
    place, or (for the loops over a list that may grow while it is iterated)
    exhausts its fuel. *)
Inductive Res (A : Type) :=
| Ret (a : A) (w : World)
| Raise (e : Exn) (w : World)
| Timeout.
Arguments Ret {A} a w.
Arguments Raise {A} e w.
Arguments Timeout {A}.

Definition M (A : Type) : Type := World → Res A.

Definition ret {A} (a : A) : M A := λ w, Ret a w.

Definition bind {A B} (m : M A) (k : A → M B) : M B := λ w,
  match m w with
  | Ret a w' => k a w'
  | Raise e w' => Raise e w'
  | Timeout => Timeout
  end.

Definition modify (f : World → World) : M unit := λ w, Ret tt (f w).

Notation "x <- m ;; k" := (bind m (λ x, k))
  (at level 100, m at next level, k at level 200, right associativity).
Notation "m ;;; k" := (bind m (λ _, k))
  (at level 100, k at level 200, right associativity).

(** *** Deferreds *)

(** [defer.Deferred()]: a fresh, pending Deferred. *)
Definition Deferred : M Did := λ w,
  Ret (next_id w)
      (with_heap (results w) (callbacks w) (S (next_id w)) (fired w) w).

(** [defer.succeed(v)]: a fresh Deferred, already called with [v]. *)
Definition succeed (v : PyVal) : M Did := λ w,
  Ret (next_id w)
      (with_heap (<[next_id w := Success v]> (results w)) (callbacks w)
                (S (next_id w)) (fired w ++ [(next_id w, Success v)]) w).

(** [self._<ch>_observers.append(d)]. *)
Definition append_obs (ch : Chan) (d : Did) : M unit :=
  modify (λ w, with_obs ch (obs ch w ++ [d]) w).

(** ** [_DeferredWormhole]: from above *)

Definition when_code : M Did := λ w,
  if truthy (_code w) then succeed (_code w) w
  else (d <- Deferred;; append_obs ChCode d;;; ret d) w.

Definition when_verifier : M Did := λ w,
  if truthy (_verifier w) then succeed (_verifier w) w
  else (d <- Deferred;; append_obs ChVerifier d;;; ret d) w.

Definition when_received : M Did := λ w,
  match _received_data w with
  | m :: rest => succeed m (with_received_data rest w)
  | [] => (d <- Deferred;; append_obs ChReceived d;;; ret d) w
  end.

Definition allocate_code (code_length : option PyVal) : M unit :=
  modify (to_boss (Boss.allocate_code (default (PInt 2) code_length))).
Definition input_code (stdio : PyVal) : M unit :=
  modify (to_boss (Boss.input_code stdio)).
Definition set_code (code : PyVal) : M unit :=
  modify (to_boss (Boss.set_code code)).
Definition send (plaintext : PyVal) : M unit :=
  modify (to_boss (Boss.send plaintext)).
Definition close : M Did :=
  modify (to_boss Boss.close);;;
  d <- Deferred;;
  append_obs ChClosed d;;;
  ret d.
Definition debug_set_trace (client_name : PyVal) (which logger : option PyVal)
  : M unit :=
  modify (to_boss (Boss._set_trace client_name
                     (default (PStr "B N M S O K R RC NL C T") which)
                     (default _log logger))).

(** One frontend call, with the future it returns if it returns one. *)
Definition call (c : Call) : M (option Did) :=
  match c with
  | CWhenCode => d <- when_code;; ret (Some d)
  | CWhenVerifier => d <- when_verifier;; ret (Some d)
  | CWhenReceived => d <- when_received;; ret (Some d)
  | CAllocateCode n => allocate_code n;;; ret None
  | CInputCode stdio => input_code stdio;;; ret None
  | CSetCode code => set_code code;;; ret None
  | CSend p => send p;;; ret None
  | CClose => d <- close;; ret (Some d)
  | CDebugSetTrace n which logger => debug_set_trace n which logger;;; ret None
  end.

(** The body of a continuation: frontend calls, results dropped. *)
Fixpoint run_calls (k : list Call) : M unit :=
  match k with
  | [] => ret tt
  | c :: k' => call c;;; run_calls k'
  end.

(** [d.callback(v)] and [d.errback(e)]: a Deferred is called once; a second
    call raises [AlreadyCalledError].  The first call records the result and
    runs the continuation attached to [d], synchronously. *)
Definition fire (d : Did) (o : Outcome) : M unit := λ w,
  match results w !! d with
  | Some _ => Raise AlreadyCalledError w
  | None =>
      run_calls (default [] (callbacks w !! d))
        (with_heap (<[d := o]> (results w)) (delete d (callbacks w))
                  (next_id w) (fired w ++ [(d, o)]) w)
  end.

Definition callback (d : Did) (v : PyVal) : M unit := fire d (Success v).
Definition errback (d : Did) (e : PyVal) : M unit := fire d (Failure e).

(** [d.addBoth(lambda _: k)]: on a Deferred already called the continuation
    runs at once, otherwise it is queued behind those already attached. *)
Definition addBoth (d : Did) (k : list Call) : M unit := λ w,
  match results w !! d with
  | Some _ => run_calls k w
  | None =>
      Ret tt (with_heap (results w)
                (<[d := default [] (callbacks w !! d) ++ k]> (callbacks w))
                (next_id w) (fired w) w)
  end.

(** [for d in lst: body(d)] over the live list: Python's list iterator holds
    an index and reads the list again at every step, so elements appended
    while the loop runs are visited too. *)
Fixpoint for_in (fuel : nat) (lst : World → list Did) (body : Did → M unit)
    (i : nat) : M unit := λ w,
  match fuel with
  | 0 => Timeout
  | S fuel' =>
      match lst w !! i with
      | None => Ret tt w
      | Some d =>
          match body d w with
          | Ret _ w' => for_in fuel' lst body (S i) w'
          | Raise e w' => Raise e w'
          | Timeout => Timeout
          end
      end
  end.

(** ** [_DeferredWormhole]: from below *)

Definition got_code (fuel : nat) (code : PyVal) : M unit :=
  modify (with_code code);;;
  for_in fuel _code_observers (λ d, callback d code) 0;;;
  modify (with_code_observers []).

Definition got_verifier (fuel : nat) (verifier : PyVal) : M unit :=
  modify (with_verifier verifier);;;
  for_in fuel _verifier_observers (λ d, callback d verifier) 0;;;
  modify (with_verifier_observers []).

Definition received (plaintext : PyVal) : M unit := λ w,
  match _received_observers w with
  | d :: rest => callback d plaintext (with_received_observers rest w)
  | [] => Ret tt (with_received_data (_received_data w ++ [plaintext]) w)
  end.

(** The error handed to the waiters by [closed]. *)
Definition close_error (result : PyVal) : PyVal :=
  if isinstance_WormholeError result then result else PWormholeClosed result.

Definition closed (fuel : nat) (result : PyVal) : M unit :=
  modify (print result);;;
  for_in fuel _verifier_observers (λ d, errback d (close_error result)) 0;;;
  for_in fuel _received_observers (λ d, errback d (close_error result)) 0;;;
  for_in fuel _closed_observers (λ d, callback d result) 0.

(** ** Sessions *)

(** What happens to a session: the consumer makes a frontend call and
    attaches a continuation to the future it gets, or the Boss delivers an
    event. *)
Inductive Input :=
| IConsumer (c : Call) (k : list Call)
| IGotCode (code : PyVal)
| IGotVerifier (verifier : PyVal)
| IReceived (plaintext : PyVal)
| IClosed (result : PyVal).

Definition step (fuel : nat) (i : Input) : M unit :=
  match i with
  | IConsumer c k =>
      r <- call c;;
      match r with Some d => addBoth d k | None => ret tt end
  | IGotCode code => got_code fuel code
  | IGotVerifier verifier => got_verifier fuel verifier
  | IReceived plaintext => received plaintext
  | IClosed result => closed fuel result
  end.

(** A session: the inputs are handled in order.  A call that raises leaves
    its state behind and the exception goes to its caller; the object then
    receives the next input.  The result lists the exceptions raised,
    oldest first. *)
Fixpoint run (fuel : nat) (t : list Input) : M (list Exn) :=
  match t with
  | [] => ret []
  | i :: t' => λ w,
      match step fuel i w with
      | Ret _ w' => run fuel t' w'
      | Raise e w' =>
          match run fuel t' w' with
          | Ret es w'' => Ret (e :: es) w''
          | r => r
          end
      | Timeout => Timeout
      end
  end.

(** An input other than the terminal [closed]. *)
Definition before_close (i : Input) : Prop :=
  match i with IClosed _ => False | _ => True end.

(** The state a call leaves behind, when there is one. *)
Definition final {A} (r : Res A) : option World :=
  match r with Ret _ w => Some w | Raise _ w => Some w | Timeout => None end.

(** How often the Deferred [d] was called effectively. *)
Definition times_fired (d : Did) (w : World) : nat :=
  length (filter (λ p, p.1 = d) (fired w)).

Definition pending (w : World) (d : Did) : Prop := results w !! d = None.

(** ** The effects a call is made of *)

#[global] Instance Chan_eq_dec : EqDecision Chan.
Proof. solve_decision. Defined.

(** [d = Deferred(); self._<ch>_observers.append(d)] *)
Definition register (ch : Chan) (w : World) : World :=
  with_obs ch (obs ch w ++ [next_id w])
    (with_heap (results w) (callbacks w) (S (next_id w)) (fired w) w).

(** The state [succeed v] leaves. *)
Definition succeeded (v : PyVal) (w : World) : World :=
  with_heap (<[next_id w := Success v]> (results w)) (callbacks w)
            (S (next_id w)) (fired w ++ [(next_id w, Success v)]) w.

(** The state in which the continuation of a Deferred just called runs. *)
Definition mark (d : Did) (o : Outcome) (w : World) : World :=
  with_heap (<[d := o]> (results w)) (delete d (callbacks w))
            (next_id w) (fired w ++ [(d, o)]) w.

(** What a frontend call does to the state, one effect at a time. *)
Inductive hstep : World → World → Prop :=
| hs_boss b w : hstep w (to_boss b w)
| hs_pop m rest w :
    _received_data w = m :: rest → hstep w (with_received_data rest w)
| hs_succeed v w : hstep w (succeeded v w)
| hs_register ch w : hstep w (register ch w).

(** ** Measures and invariants *)

(** The number of frontend calls still queued in continuations, and a bound
    on the Deferreds the loops of this file may still have to visit. *)
Definition total_calls (w : World) : nat :=
  map_fold (λ _ (k : list Call) n, length k + n) 0 (callbacks w).

Definition potential (w : World) : nat :=
  length (waiters w) + total_calls w.

(** Holds in every state a session goes through. *)
Record sound (w : World) : Prop := mkSound {
  sound_fresh_results : ∀ d, next_id w ≤ d → results w !! d = None;
  sound_fresh_callbacks : ∀ d, next_id w ≤ d → callbacks w !! d = None;
  sound_waiters : ∀ d, d ∈ waiters w → d < next_id w;
  sound_nodup : NoDup (waiters w);
  sound_fired_nodup : NoDup (fired w).*1;
  sound_fired : ∀ d o, (d, o) ∈ fired w ↔ results w !! d = Some o
}.

(** Holds until the session is closed: every Deferred in an observer list
    is still pending. *)
Definition wf (w : World) : Prop :=
  sound w ∧ ∀ d, d ∈ waiters w → results w !! d = None.

(** How a later state relates to an earlier one of the same session. *)
Record evolves (w w' : World) : Prop := mkEvolves {
  ev_next : next_id w ≤ next_id w';
  ev_old : ∀ d x, results w !! d = Some x → results w' !! d = Some x;
  ev_obs : ∀ c, obs c w `prefix_of` obs c w';
  ev_new : ∀ c d, d ∈ obs c w' → d ∈ obs c w ∨ next_id w ≤ d;
  ev_code : _code w' = _code w;
  ev_verifier : _verifier w' = _verifier w;
  ev_data : _received_data w' `suffix_of` _received_data w
}.

(** The invariant of a loop that calls every Deferred of [obs ch] with [o]:
    the ones before index [j] have been called with [o], the ones from [j]
    on and those of the channels [chs] are pending. *)
Definition LI (ch : Chan) (chs : list Chan) (o : Outcome) (j : nat)
    (w : World) : Prop :=
  sound w ∧ j ≤ length (obs ch w) ∧
  (∀ i d, obs ch w !! i = Some d →
     results w !! d = if decide (i < j) then Some o else None) ∧
  (∀ c d, c ∈ chs → d ∈ obs c w → results w !! d = None).

Ltac chan_notin :=
  repeat (apply not_elem_of_cons; split; [done|]); apply not_elem_of_nil.

Ltac chan_in :=
  repeat (apply elem_of_cons; first [by left|right]).

(** ** Sequences of calls and sample sessions *)

(** [n] calls of [m] in a row, with what each returned. *)
Fixpoint repeat_call {A} (n : nat) (m : M A) : M (list A) :=
  match n with
  | 0 => ret []
  | S n' => a <- m;; l <- repeat_call n' m;; ret (a :: l)
  end.

(** [received(m)] for each message of a list, oldest first. *)
Fixpoint received_all (ms : list PyVal) : M unit :=
  match ms with
  | [] => ret tt
  | m :: ms' => received m;;; received_all ms'
  end.

(** A session with one waiter on each of the Code, Verifier and Received
    channels and one close future. *)
Definition four_waiters : World :=
  register ChClosed
    (register ChReceived (register ChVerifier (register ChCode init))).

(** The state [addBoth] leaves on a pending Deferred. *)
Definition attach (d : Did) (k : list Call) (w : World) : World :=
  with_heap (results w)
            (<[d := default [] (callbacks w !! d) ++ k]> (callbacks w))
            (next_id w) (fired w) w.

(** A session whose consumer asked for the verifier and attached, to the
    future it got, a continuation that asks for the verifier again. *)
Definition reentrant_session : World :=
  attach 0 [CWhenVerifier] (register ChVerifier init).

(** No continuation queued in the session calls [when_received()]. *)
Definition no_reentrant_receive (w : World) : Prop :=
  ∀ d k, callbacks w !! d = Some k → CWhenReceived ∉ k.

(** A session with a verifier waiter, a close future and two buffered
    messages. *)
Definition buffered_session : World :=
  with_received_data [PStr "m1"; PStr "m2"]
    (register ChClosed (register ChVerifier init)).

(** What the Boss is asked to do by a command of the delegated frontend and
    by the same command of the deferred frontend. *)
Definition delegated_forwards (c : Call) : list Boss.call :=
  _DelegatedWormhole._boss
    (match c with
     | CAllocateCode n => _DelegatedWormhole.allocate_code n
     | CInputCode stdio => _DelegatedWormhole.input_code stdio
     | CSetCode code => _DelegatedWormhole.set_code code
     | CSend p => _DelegatedWormhole.send p
     | CClose => _DelegatedWormhole.close
     | CDebugSetTrace n which logger =>
         _DelegatedWormhole.debug_set_trace n which logger
     | CWhenCode | CWhenVerifier | CWhenReceived => id
     end (_DelegatedWormhole.mk [] [])).

Definition deferred_forwards (c : Call) : list Boss.call :=
  match call c init with
  | Ret _ w => _boss w
  | _ => []
  end.

(** Whether a frontend call is one of the six commands. *)
Definition is_command (c : Call) : bool :=
  match c with
  | CWhenCode | CWhenVerifier | CWhenReceived => false
  | _ => true
  end.

(** ** Handlers that attach themselves *)

Section Handlers.
(** The calls of a consumer's handler [h] after which [h] attaches itself
    to the future the call returned, as in
    [def h(_): w.when_verifier().addBoth(h)].  Where [again] is false the
    handler drops the future, which is all [run_calls] can do. *)
Variable again : Call → bool.

(** The rest [k] of the body of [h], run when a Deferred carrying [h] is
    called.  [addBoth(h)] on a Deferred already called runs [h] at once,
    which is a recursive call and takes fuel; on a pending Deferred it
    queues [h]. *)
Fixpoint run_handler (fuel : nat) (h : list Call) {struct fuel}
  : list Call → M unit :=
  fix go (k : list Call) : M unit :=
    match k with
    | [] => ret tt
    | c :: k' =>
        bind (call c) (λ r,
        bind (match r with
              | Some d =>
                  if again c
                  then λ w, match results w !! d with
                            | Some _ =>
                                match fuel with
                                | 0 => Timeout
                                | S fuel' => run_handler fuel' h h w
                                end
                            | None => Ret tt (attach d h w)
                            end
                  else ret tt
              | None => ret tt
              end) (λ _, go k'))
    end.

(** [d.callback(v)] and [d.errback(e)] with such handlers. *)
Definition fire_h (fuel : nat) (d : Did) (o : Outcome) : M unit := λ w,
  match results w !! d with
  | Some _ => Raise AlreadyCalledError w
  | None =>
      run_handler fuel (default [] (callbacks w !! d))
        (default [] (callbacks w !! d)) (mark d o w)
  end.

(** [_DeferredWormhole.closed] with such handlers. *)
Definition closed_h (fuel : nat) (result : PyVal) : M unit :=
  modify (print result);;;
  for_in fuel _verifier_observers
    (λ d, fire_h fuel d (Failure (close_error result))) 0;;;
  for_in fuel _received_observers
    (λ d, fire_h fuel d (Failure (close_error result))) 0;;;
  for_in fuel _closed_observers (λ d, fire_h fuel d (Success result)) 0.
End Handlers.

(** A session with a Verifier waiter, whose handler asks for the verifier
    again, and a Received waiter. *)
Definition hanging_session : World := register ChReceived reentrant_session.

(** The state of the Verifier loop of [closed] when it reaches index [i]:
    the Deferred at [i] is the last of the list, pending, and carries the
    handler. *)
Definition reattaching (i : nat) (w : World) : Prop :=
  length (_verifier_observers w) = S i ∧
  truthy (_verifier w) = false ∧
  (∀ n : Did, next_id w ≤ n →
     results w !! n = None ∧ callbacks w !! n = None) ∧
  ∃ d : Did, _verifier_observers w !! i = Some d ∧ d < next_id w ∧
       results w !! d = None ∧ callbacks w !! d = Some [CWhenVerifier].

(** The effects a handler is made of: those of the frontend calls it makes,
    and queuing a handler on a Deferred that exists. *)
Inductive astep : World → World → Prop :=
| as_call w w' : hstep w w' → astep w w'
| as_attach d k w : d < next_id w → astep w (attach d k w).

(** The session of [four_waiters] in which the handler of the Verifier
    waiter asks for the code. *)
Definition cross_session : World := attach 1 [CWhenCode] four_waiters.

(** ** Invariants of whole sessions *)

(** On the Received channel a waiter is never pending while a message is
    buffered. *)
Definition exclusive (w : World) : Prop :=
  _received_observers w = [] ∨ _received_data w = [].

Definition session_ok (w : World) : Prop := sound w ∧ exclusive w.


(** ** A session of the delegated frontend *)

(** The six commands, and the four events the Boss delivers. *)
Inductive Command :=
| KAllocateCode (code_length : option PyVal)
| KInputCode (stdio : PyVal)
| KSetCode (code : PyVal)
| KSend (plaintext : PyVal)
| KClose
| KDebugSetTrace (client_name : PyVal) (which logger : option PyVal).

Inductive Event :=
| EGotCode (code : PyVal)
| EGotVerifier (verifier : PyVal)
| EReceived (plaintext : PyVal)
| EClosed (result : PyVal).

Definition delegated_command (k : Command)
  : _DelegatedWormhole.t → _DelegatedWormhole.t :=
  match k with
  | KAllocateCode n => _DelegatedWormhole.allocate_code n
  | KInputCode stdio => _DelegatedWormhole.input_code stdio
  | KSetCode code => _DelegatedWormhole.set_code code
  | KSend p => _DelegatedWormhole.send p
  | KClose => _DelegatedWormhole.close
  | KDebugSetTrace n which logger =>
      _DelegatedWormhole.debug_set_trace n which logger
  end.

Definition delegated_event (e : Event)
  : _DelegatedWormhole.t → _DelegatedWormhole.t :=
  match e with
  | EGotCode code => _DelegatedWormhole.got_code code
  | EGotVerifier verifier => _DelegatedWormhole.got_verifier verifier
  | EReceived p => _DelegatedWormhole.received p
  | EClosed result => _DelegatedWormhole.closed result
  end.

(** Commands and events, interleaved in any way. *)
Definition delegated_run (l : list (Command + Event))
  (w : _DelegatedWormhole.t) : _DelegatedWormhole.t :=
  foldl (λ w i, match i with
                | inl k => delegated_command k w
                | inr e => delegated_event e w
                end) w l.

(** The delegate method an event is pushed to. *)
Definition pushed (e : Event) : Delegate.call :=
  match e with
  | EGotCode code => Delegate.wormhole_got_code code
  | EGotVerifier verifier => Delegate.wormhole_got_verifier verifier
  | EReceived p => Delegate.wormhole_received p
  | EClosed result => Delegate.wormhole_closed result
  end.

(** The Boss method a command of the delegated frontend is forwarded to. *)
Definition forwarded (k : Command) : Boss.call :=
  match k with
  | KAllocateCode n => Boss.allocate_code (default (PInt 2) n)
  | KInputCode stdio => Boss.input_code stdio
  | KSetCode code => Boss.set_code code
  | KSend p => Boss.send p
  | KClose => Boss.close
  | KDebugSetTrace n which logger =>
      Boss.set_trace n (default (PStr "B N M S O K R RC NL C T") which)
        (default _log logger)
  end.

Definition events_of (l : list (Command + Event)) : list Event :=
  omap (λ i, match i with inr e => Some e | inl _ => None end) l.

Definition commands_of (l : list (Command + Event)) : list Command :=
  omap (λ i, match i with inl k => Some k | inr _ => None end) l.

(** ** Construction *)

(** [x or y]. *)
Definition py_or (x y : PyVal) : PyVal := if truthy x then x else y.

(** The frontend object [_wormhole] returns. *)
Inductive Wormhole :=
| W_Delegated (delegate : PyVal) (w : _DelegatedWormhole.t)
| W_Deferred (w : World).

(** The arguments of [Boss(w, side, relay_url, appid, reactor, journal,
    timing)], [w] apart. *)
Record BossArgs := mkBossArgs {
  arg_side : PyVal;
  arg_relay_url : PyVal;
  arg_appid : PyVal;
  arg_reactor : PyVal;
  arg_journal : PyVal;
  arg_timing : PyVal
}.

(** [w._set_boss(b)] and [b.start()]. *)
Inductive Setup := Set_boss | Start.

Record Built := mkBuilt {
  built_wormhole : Wormhole;
  built_boss : BossArgs;
  built_setup : list Setup
}.

Inductive BuildExn := AssertionError.

Section Construction.
(** [os.urandom], and [bytes_to_hexstr] of [.util]. *)
Variable urandom : nat → list Z.
Variable bytes_to_hexstr : list Z → PyVal.

Definition _wormhole (appid relay_url reactor delegate tor_manager timing
    journal stderr : PyVal) : Built :=
  let timing := py_or timing (PObject "DebugTiming()") in
  let side := bytes_to_hexstr (urandom 5) in
  let journal := py_or journal (PObject "ImmediateJournal()") in
  let w := if truthy delegate
           then W_Delegated delegate (_DelegatedWormhole.mk [] [])
           else W_Deferred init in
  {| built_wormhole := w;
     built_boss := mkBossArgs side relay_url appid reactor journal timing;
     built_setup := [Set_boss; Start] |}.

Definition delegated_wormhole (appid relay_url reactor delegate tor_manager
    timing journal stderr : PyVal) : Built + BuildExn :=
  if truthy delegate
  then inl (_wormhole appid relay_url reactor delegate tor_manager timing
              journal stderr)
  else inr AssertionError.

Definition deferred_wormhole (appid relay_url reactor tor_manager timing
    journal stderr : PyVal) : Built :=
  _wormhole appid relay_url reactor PNone tor_manager timing journal stderr.
End Construction.

(** * Properties *)

(** ** Lemmas on the observer lists *)

Lemma elem_of_waiters d w : d ∈ waiters w ↔ ∃ c, d ∈ obs c w.
Proof.
  unfold waiters. rewrite !elem_of_app. split.
  - intros [H|[H|[H|H]]];
      [exists ChCode|exists ChVerifier|exists ChReceived|exists ChClosed]; done.
  - intros [[] H]; simpl in H; auto.
Qed.

Lemma obs_register c ch w :
  obs c (register ch w) = if decide (c = ch) then obs c w ++ [next_id w]
                          else obs c w.
Proof. destruct c, ch; case_decide; done. Qed.

Lemma waiters_register ch w :
  waiters (register ch w) ≡ₚ next_id w :: waiters w.
Proof.
  destruct ch; unfold waiters; simpl; solve_Permutation.
Qed.

Lemma obs_nodup c w : NoDup (waiters w) → NoDup (obs c w).
Proof.
  unfold waiters. rewrite !NoDup_app.
  intros (?&?&?&?&?&?&?). by destruct c.
Qed.

Lemma obs_disjoint c c' d w :
  NoDup (waiters w) → c ≠ c' → d ∈ obs c w → d ∈ obs c' w → False.
Proof.
  unfold waiters. rewrite !NoDup_app.
  intros (_ & HA & _ & HB & _ & HC & _) Hne H1 H2.
  destruct c, c'; simpl in *; try done;
    first [ by apply (HA d); rewrite ?elem_of_app; auto
          | by apply (HB d); rewrite ?elem_of_app; auto
          | by apply (HC d); rewrite ?elem_of_app; auto ].
Qed.

(** ** [sound] is kept by every effect *)

Lemma fired_extend (f : list (Did * Outcome)) (r : gmap Did Outcome) d o :
  NoDup f.*1 → (∀ d' o', (d', o') ∈ f ↔ r !! d' = Some o') → r !! d = None →
  NoDup (f ++ [(d, o)]).*1 ∧
  ∀ d' o', (d', o') ∈ f ++ [(d, o)] ↔ <[d := o]> r !! d' = Some o'.
Proof.
  intros Hnd Hiff Hd. split.
  - rewrite fmap_app. apply NoDup_app. split; [done|]. split.
    + intros x Hx Hin. apply list_elem_of_fmap in Hx as [[d' o'] [-> Hx]].
      simpl in Hin. apply list_elem_of_singleton in Hin as ->.
      apply Hiff in Hx. congruence.
    + simpl. apply NoDup_singleton.
  - intros d' o'. rewrite elem_of_app, list_elem_of_singleton, Hiff.
    destruct (decide (d = d')) as [->|Hne].
    + rewrite lookup_insert_eq. split.
      * intros [H|H]; congruence.
      * intros [= ->]. by right.
    + rewrite lookup_insert_ne by done. split; [|by left].
      intros [H|H]; [done|congruence].
Qed.

Lemma sound_boss b w : sound w → sound (to_boss b w).
Proof. intros []. by constructor. Qed.

Lemma sound_pop l w : sound w → sound (with_received_data l w).
Proof. intros []. by constructor. Qed.

Lemma sound_print v w : sound w → sound (print v w).
Proof. intros []. by constructor. Qed.

Lemma sound_with_code v w : sound w → sound (with_code v w).
Proof. intros []. by constructor. Qed.

Lemma sound_with_verifier v w : sound w → sound (with_verifier v w).
Proof. intros []. by constructor. Qed.

Lemma sound_mark d o w :
  sound w → results w !! d = None → d < next_id w → sound (mark d o w).
Proof.
  intros [H1 H2 H3 H4 H5 H6] Hd Hlt.
  destruct (fired_extend (fired w) (results w) d o H5 H6 Hd) as [H5' H6'].
  constructor; simpl; try done.
  - intros d' Hd'. rewrite lookup_insert_ne by lia. auto.
  - intros d' Hd'. rewrite lookup_delete_ne by lia. auto.
Qed.

Lemma sound_succeeded v w : sound w → sound (succeeded v w).
Proof.
  intros [H1 H2 H3 H4 H5 H6].
  destruct (fired_extend (fired w) (results w) (next_id w) (Success v) H5 H6)
    as [H5' H6']; [by apply H1|].
  constructor; simpl; try done.
  - intros d' Hd'. rewrite lookup_insert_ne by lia. apply H1. lia.
  - intros d' Hd'. apply H2. lia.
  - intros d' Hd'. apply H3 in Hd'. lia.
Qed.

Lemma sound_register ch w : sound w → sound (register ch w).
Proof.
  intros [H1 H2 H3 H4 H5 H6].
  assert (Hn : next_id (register ch w) = S (next_id w)) by by destruct ch.
  assert (Hr : results (register ch w) = results w) by by destruct ch.
  assert (Hc : callbacks (register ch w) = callbacks w) by by destruct ch.
  assert (Hf : fired (register ch w) = fired w) by by destruct ch.
  constructor; rewrite ?Hn, ?Hr, ?Hc, ?Hf; try done.
  - intros d Hd. apply H1. lia.
  - intros d Hd. apply H2. lia.
  - intros d. rewrite waiters_register, elem_of_cons.
    intros [->|Hd]; [lia|]. apply H3 in Hd. lia.
  - rewrite waiters_register. apply NoDup_cons. split; [|done].
    intros Hd. apply H3 in Hd. lia.
Qed.

Lemma sound_hstep w w' : sound w → hstep w w' → sound w'.
Proof.
  intros Hs Hstep. destruct Hstep.
  - by apply sound_boss.
  - by apply sound_pop.
  - by apply sound_succeeded.
  - by apply sound_register.
Qed.

Lemma sound_init : sound init.
Proof.
  constructor; simpl; try done; try apply NoDup_nil_2.
  - intros d H. by apply not_elem_of_nil in H.
  - intros d o. rewrite lookup_empty. split; [|done].
    intros H. by apply not_elem_of_nil in H.
Qed.

Lemma wf_init : wf init.
Proof. split; [apply sound_init|]. intros d H. by apply lookup_empty. Qed.

(** ** [evolves] is a preorder containing every effect *)

Lemma evolves_refl w : evolves w w.
Proof. constructor; auto. Qed.

Lemma evolves_trans w1 w2 w3 : evolves w1 w2 → evolves w2 w3 → evolves w1 w3.
Proof.
  intros [A1 A2 A3 A4 A5 A6 A7] [B1 B2 B3 B4 B5 B6 B7]. constructor.
  - lia.
  - auto.
  - intros c. etrans; [apply A3|apply B3].
  - intros c d Hd. destruct (B4 c d Hd) as [H|H]; [auto|right; lia].
  - congruence.
  - congruence.
  - by etrans.
Qed.

Lemma evolves_boss b w : evolves w (to_boss b w).
Proof. constructor; auto. Qed.

Lemma evolves_pop m rest w :
  _received_data w = m :: rest → evolves w (with_received_data rest w).
Proof.
  intros Hbuf. constructor; auto. simpl. rewrite Hbuf. by apply suffix_cons_r.
Qed.

Lemma evolves_print v w : evolves w (print v w).
Proof. constructor; auto. Qed.

Lemma evolves_mark d o w : results w !! d = None → evolves w (mark d o w).
Proof.
  intros Hd. constructor; simpl; auto.
  intros d' x Hx. rewrite lookup_insert_ne; [done|congruence].
Qed.

Lemma evolves_succeeded v w : sound w → evolves w (succeeded v w).
Proof.
  intros Hs. constructor; simpl; auto.
  intros d' x Hx. rewrite lookup_insert_ne; [done|].
  intros <-. rewrite (sound_fresh_results w Hs) in Hx; [done|lia].
Qed.

Lemma evolves_register ch w : evolves w (register ch w).
Proof.
  constructor.
  - destruct ch; simpl; lia.
  - by destruct ch.
  - intros c. rewrite obs_register. case_decide; [|done].
    by apply prefix_app_r.
  - intros c d. rewrite obs_register. case_decide; [|auto].
    rewrite elem_of_app, list_elem_of_singleton. intros [?| ->]; auto.
  - by destruct ch.
  - by destruct ch.
  - by destruct ch.
Qed.

Lemma evolves_hstep w w' : sound w → hstep w w' → evolves w w'.
Proof.
  intros Hs Hstep. destruct Hstep.
  - apply evolves_boss.
  - by eapply evolves_pop.
  - by apply evolves_succeeded.
  - apply evolves_register.
Qed.

Lemma hsteps_sound_evolves w w' :
  rtc hstep w w' → sound w → sound w' ∧ evolves w w'.
Proof.
  induction 1 as [w|w1 w2 w3 H12 H23 IH]; intros Hs.
  - split; [done|apply evolves_refl].
  - destruct IH as [Hs3 He]; [by eapply sound_hstep|].
    split; [done|]. eapply evolves_trans; [|done]. by apply evolves_hstep.
Qed.

(** ** The potential *)

Lemma total_calls_delete d w :
  total_calls (mark d w.1 w.2) + length (default [] (callbacks w.2 !! d))
  = total_calls w.2.
Proof.
  destruct w as [o w]. unfold total_calls. simpl.
  destruct (callbacks w !! d) as [k|] eqn:Hk; simpl.
  - rewrite (map_fold_delete_L _ 0 d k (callbacks w)); [lia| |done].
    intros. lia.
  - rewrite delete_id by done. lia.
Qed.

Lemma potential_mark d o w :
  potential (mark d o w) + length (default [] (callbacks w !! d))
  = potential w.
Proof.
  unfold potential. pose proof (total_calls_delete d (o, w)) as H.
  simpl in H. change (waiters (mark d o w)) with (waiters w). lia.
Qed.

Lemma potential_register ch w : potential (register ch w) = S (potential w).
Proof.
  unfold potential. rewrite waiters_register. simpl.
  replace (total_calls (register ch w)) with (total_calls w) by by destruct ch.
  done.
Qed.

Lemma potential_succeeded v w : potential (succeeded v w) = potential w.
Proof. done. Qed.

Lemma potential_boss b w : potential (to_boss b w) = potential w.
Proof. done. Qed.

Lemma potential_pop l w : potential (with_received_data l w) = potential w.
Proof. done. Qed.

(** ** Frontend calls *)

(** Every frontend call returns; it allocates at most one Deferred, leaves
    the continuations alone and consists of the effects above. *)
Lemma call_spec c w :
  ∃ r w', call c w = Ret r w' ∧ rtc hstep w w' ∧
    potential w' ≤ S (potential w) ∧ callbacks w' = callbacks w ∧
    (∀ d, r = Some d → d = next_id w ∧ next_id w' = S d).
Proof.
  destruct c; unfold call, bind, when_code, when_verifier, when_received,
    close, allocate_code, input_code, set_code, send, debug_set_trace,
    modify; simpl.
  - destruct (truthy (_code w)); simpl.
    + exists (Some (next_id w)), (succeeded (_code w) w).
      split_and!; [done|apply rtc_once, hs_succeed|
                   rewrite ?potential_succeeded, ?potential_boss, ?potential_pop; lia|done|by intros ? [= <-]].
    + exists (Some (next_id w)), (register ChCode w).
      split_and!; [done|apply rtc_once, hs_register|
                   by rewrite potential_register|done|by intros ? [= <-]].
  - destruct (truthy (_verifier w)); simpl.
    + exists (Some (next_id w)), (succeeded (_verifier w) w).
      split_and!; [done|apply rtc_once, hs_succeed|
                   rewrite ?potential_succeeded, ?potential_boss, ?potential_pop; lia|done|by intros ? [= <-]].
    + exists (Some (next_id w)), (register ChVerifier w).
      split_and!; [done|apply rtc_once, hs_register|
                   by rewrite potential_register|done|by intros ? [= <-]].
  - destruct (_received_data w) as [|m rest] eqn:Hbuf; simpl.
    + exists (Some (next_id w)), (register ChReceived w).
      split_and!; [done|apply rtc_once, hs_register|
                   by rewrite potential_register|done|by intros ? [= <-]].
    + exists (Some (next_id w)), (succeeded m (with_received_data rest w)).
      split_and!; [done| |rewrite ?potential_succeeded, ?potential_boss, ?potential_pop; lia|done|
                   by intros ? [= <-]].
      eapply rtc_l; [by eapply hs_pop|]. apply rtc_once, hs_succeed.
  - eexists None, _. split_and!; [done|apply rtc_once, hs_boss|
      rewrite ?potential_succeeded, ?potential_boss, ?potential_pop; lia|done|done].
  - eexists None, _. split_and!; [done|apply rtc_once, hs_boss|
      rewrite ?potential_succeeded, ?potential_boss, ?potential_pop; lia|done|done].
  - eexists None, _. split_and!; [done|apply rtc_once, hs_boss|
      rewrite ?potential_succeeded, ?potential_boss, ?potential_pop; lia|done|done].
  - eexists None, _. split_and!; [done|apply rtc_once, hs_boss|
      rewrite ?potential_succeeded, ?potential_boss, ?potential_pop; lia|done|done].
  - exists (Some (next_id w)), (register ChClosed (to_boss Boss.close w)).
    split_and!; [done| |rewrite potential_register, potential_boss; lia|done|by intros ? [= <-]].
    eapply rtc_l; [apply hs_boss|]. apply rtc_once, hs_register.
  - eexists None, _. split_and!; [done|apply rtc_once, hs_boss|
      rewrite ?potential_succeeded, ?potential_boss, ?potential_pop; lia|done|done].
Qed.

Lemma run_calls_spec k w :
  ∃ w', run_calls k w = Ret tt w' ∧ rtc hstep w w' ∧
    potential w' ≤ potential w + length k ∧ callbacks w' = callbacks w.
Proof.
  revert w. induction k as [|c k IH]; intros w; simpl.
  - exists w. split_and!; [done|done|lia|done].
  - destruct (call_spec c w) as (r & w1 & Hc & Hst & Hp & Hcb & _).
    destruct (IH w1) as (w2 & Hr & Hst2 & Hp2 & Hcb2).
    exists w2. unfold bind. rewrite Hc, Hr.
    split_and!; [done|by etrans|lia|congruence].
Qed.

(** ** Calling a Deferred *)

Lemma obs_length_le c w : length (obs c w) ≤ length (waiters w).
Proof. unfold waiters. rewrite !length_app. destruct c; simpl; lia. Qed.

Lemma obs_lt c d w : sound w → d ∈ obs c w → d < next_id w.
Proof.
  intros Hs Hd. apply (sound_waiters w Hs), elem_of_waiters. by exists c.
Qed.

(** A pending Deferred can be called: the call returns, in a state reached
    from [mark d o w] by the calls of its continuation. *)
Lemma fire_pending d o w :
  results w !! d = None →
  ∃ w', fire d o w = Ret tt w' ∧ rtc hstep (mark d o w) w' ∧
        potential w' ≤ potential w.
Proof.
  intros Hd. unfold fire. rewrite Hd.
  destruct (run_calls_spec (default [] (callbacks w !! d)) (mark d o w))
    as (w' & Hr & Hst & Hp & _).
  exists w'. split_and!; [done|done|].
  pose proof (potential_mark d o w). lia.
Qed.

(** A Deferred already called cannot be called again. *)
Lemma fire_called d o x w :
  results w !! d = Some x → fire d o w = Raise AlreadyCalledError w.
Proof. intros Hd. unfold fire. by rewrite Hd. Qed.

Lemma fire_sound_evolves d o w w' :
  sound w → results w !! d = None → d < next_id w →
  rtc hstep (mark d o w) w' →
  sound w' ∧ evolves w w' ∧ results w' !! d = Some o.
Proof.
  intros Hs Hd Hlt Hst.
  destruct (hsteps_sound_evolves _ _ Hst) as [Hs' He];
    [by apply sound_mark|].
  split_and!; [done| |].
  - eapply evolves_trans; [by apply evolves_mark|done].
  - apply (ev_old _ _ He). simpl. apply lookup_insert_eq.
Qed.

(** ** The loop invariant *)

Lemma obs_mark c d o w : obs c (mark d o w) = obs c w.
Proof. by destruct c. Qed.

Lemma LI_hstep ch chs o j w w' :
  LI ch chs o j w → hstep w w' → LI ch chs o j w'.
Proof.
  intros (Hs & Hj & Hi & Hc) Hstep.
  pose proof (sound_hstep _ _ Hs Hstep) as Hs'.
  destruct Hstep as [b w|m rest w Hbuf|v w|c' w].
  - by split_and!.
  - by split_and!.
  - split_and!; [done|done| |].
    + intros i d Hd. simpl. rewrite lookup_insert_ne; [by apply Hi|].
      apply list_elem_of_lookup_2, (obs_lt _ _ _ Hs) in Hd. lia.
    + intros c d Hin Hd. simpl. rewrite lookup_insert_ne; [by eapply Hc|].
      apply (obs_lt _ _ _ Hs) in Hd. lia.
  - assert (Hr : results (register c' w) = results w) by by destruct c'.
    split_and!; [done| | |].
    + rewrite obs_register. case_decide; [|done]. rewrite length_app. lia.
    + intros i d. rewrite obs_register, Hr. case_decide; [|by apply Hi].
      rewrite lookup_app. destruct (obs ch w !! i) eqn:Hl.
      * intros [= <-]. by apply Hi.
      * apply lookup_ge_None in Hl.
        destruct (i - length (obs ch w)) as [|n]; [|done].
        intros [= <-]. rewrite decide_False by lia.
        by apply (sound_fresh_results _ Hs).
    + intros c d Hin. rewrite obs_register, Hr. case_decide; [|by apply Hc].
      rewrite elem_of_app, list_elem_of_singleton. intros [Hd| ->].
      * by eapply Hc.
      * by apply (sound_fresh_results _ Hs).
Qed.

Lemma LI_hsteps ch chs o j w w' :
  rtc hstep w w' → LI ch chs o j w → LI ch chs o j w'.
Proof. induction 1; eauto using LI_hstep. Qed.

Lemma LI_mark ch chs o j d w :
  ch ∉ chs → LI ch chs o j w → obs ch w !! j = Some d →
  LI ch chs o (S j) (mark d o w).
Proof.
  intros Hch (Hs & Hj & Hi & Hc) Hd.
  assert (Hpend : results w !! d = None).
  { rewrite (Hi _ _ Hd). by rewrite decide_False by lia. }
  assert (Hlt : d < next_id w).
  { eapply obs_lt; [done|]. by eapply list_elem_of_lookup_2. }
  split_and!.
  - by apply sound_mark.
  - rewrite obs_mark. apply lookup_lt_Some in Hd. exact Hd.
  - intros i d'. rewrite obs_mark. intros Hd'. simpl.
    destruct (decide (d' = d)) as [->|Hne].
    + rewrite lookup_insert_eq.
      assert (i = j) as ->.
      { eapply NoDup_lookup; [|done..]. apply obs_nodup, Hs. }
      by rewrite decide_True by lia.
    + rewrite lookup_insert_ne by done. rewrite (Hi _ _ Hd').
      assert (i ≠ j) by (intros ->; simplify_eq).
      repeat case_decide; done || lia.
  - intros c d' Hin. rewrite obs_mark. intros Hd'. simpl.
    rewrite lookup_insert_ne; [by eapply Hc|].
    intros ->. eapply (obs_disjoint ch c d' w); [apply Hs| |by eapply list_elem_of_lookup_2|done].
    by intros ->.
Qed.

(** One iteration of a resolving loop. *)
Lemma LI_fire ch chs o j d w :
  ch ∉ chs → LI ch chs o j w → obs ch w !! j = Some d →
  ∃ w', fire d o w = Ret tt w' ∧ LI ch chs o (S j) w' ∧ evolves w w' ∧
        potential w' ≤ potential w.
Proof.
  intros Hch HLI Hd.
  assert (Hpend : results w !! d = None).
  { destruct HLI as (_ & _ & Hi & _). rewrite (Hi _ _ Hd).
    by rewrite decide_False by lia. }
  assert (Hlt : d < next_id w).
  { eapply obs_lt; [apply HLI|]. by eapply list_elem_of_lookup_2. }
  destruct (fire_pending d o w Hpend) as (w' & Hf & Hst & Hp).
  exists w'. split_and!; [done| | |done].
  - eapply LI_hsteps; [done|]. by apply LI_mark.
  - eapply fire_sound_evolves; [apply HLI|done..].
Qed.

(** A resolving loop terminates, given fuel for the Deferreds listed and the
    calls queued in continuations, and leaves every Deferred of the list,
    also those appended while it ran, called with [o]. *)
Lemma for_in_fire ch chs o fuel j w :
  ch ∉ chs → LI ch chs o j w → potential w - j < fuel →
  ∃ w', for_in fuel (obs ch) (λ d, fire d o) j w = Ret tt w' ∧
        LI ch chs o (length (obs ch w')) w' ∧ evolves w w' ∧
        potential w' ≤ potential w.
Proof.
  intros Hch. revert j w. induction fuel as [|fuel IH]; intros j w HLI Hfuel.
  - lia.
  - simpl. destruct (obs ch w !! j) as [d|] eqn:Hd.
    + destruct (LI_fire ch chs o j d w Hch HLI Hd) as (w1 & Hf & HLI1 & He1 & Hp1).
      rewrite Hf.
      assert (j < potential w).
      { apply lookup_lt_Some in Hd. pose proof (obs_length_le ch w).
        unfold potential. lia. }
      destruct (IH (S j) w1 HLI1) as (w' & Hl & HLI' & He' & Hp'); [lia|].
      exists w'. split_and!; [done|done|by eapply evolves_trans|lia].
    + exists w. apply lookup_ge_None in Hd.
      assert (j = length (obs ch w)) as -> by (destruct HLI as (_&?&_); lia).
      split_and!; [done|done|apply evolves_refl|lia].
Qed.

(** ** A Deferred is called at most once *)

Lemma filter_fst_absent (l : list (Did * Outcome)) d :
  d ∉ l.*1 → filter (λ p, p.1 = d) l = [].
Proof.
  induction l as [|p l IH]; [done|]. rewrite fmap_cons, not_elem_of_cons.
  intros [Hne Hd]. rewrite filter_cons_False; [auto|].
  simpl. intros Heq. by apply Hne.
Qed.

Lemma filter_fst_once (l : list (Did * Outcome)) d o :
  NoDup l.*1 → (d, o) ∈ l → length (filter (λ p, p.1 = d) l) = 1.
Proof.
  induction l as [|p l IH]; intros Hnd Hin.
  - by apply not_elem_of_nil in Hin.
  - rewrite fmap_cons in Hnd. apply NoDup_cons in Hnd as [Hp Hnd].
    apply elem_of_cons in Hin as [<-|Hin].
    + rewrite filter_cons_True by done. simpl.
      by rewrite filter_fst_absent.
    + rewrite filter_cons_False; [auto|].
      intros Heq. apply Hp. rewrite Heq.
      apply list_elem_of_fmap. by exists (d, o).
Qed.

Lemma times_fired_once d o w :
  sound w → results w !! d = Some o → times_fired d w = 1.
Proof.
  intros Hs Hd. unfold times_fired. eapply filter_fst_once.
  - apply Hs.
  - by apply (sound_fired w Hs).
Qed.

Lemma times_fired_pending d w :
  sound w → results w !! d = None → times_fired d w = 0.
Proof.
  intros Hs Hd. unfold times_fired. rewrite filter_fst_absent; [done|].
  intros Hin. apply list_elem_of_fmap in Hin as [[d' o] [-> Hin]].
  apply (sound_fired w Hs) in Hin. simpl in *. congruence.
Qed.


(** ** The events, on a state where every listed Deferred is pending *)

Lemma wf_LI ch chs o w : wf w → LI ch chs o 0 w.
Proof.
  intros [Hs Hp]. split_and!; [done|lia| |].
  - intros i d Hd. rewrite decide_False by lia.
    apply Hp, elem_of_waiters. exists ch. by eapply list_elem_of_lookup_2.
  - intros c d _ Hd. apply Hp, elem_of_waiters. by exists c.
Qed.

Lemma LI_restart ch ch' chs o o' j w :
  LI ch (ch' :: chs) o j w → LI ch' chs o' 0 w.
Proof.
  intros (Hs & _ & _ & Hc). split_and!; [done|lia| |].
  - intros i d Hd. rewrite decide_False by lia.
    apply (Hc ch'); [by left|]. by eapply list_elem_of_lookup_2.
  - intros c d Hin Hd. apply (Hc c); [by right|done].
Qed.

Lemma LI_all ch chs o w d :
  LI ch chs o (length (obs ch w)) w → d ∈ obs ch w →
  results w !! d = Some o.
Proof.
  intros (_ & _ & Hi & _) Hd. apply list_elem_of_lookup_1 in Hd as [i Hd].
  rewrite (Hi _ _ Hd). apply lookup_lt_Some in Hd. by rewrite decide_True.
Qed.

Lemma waiters_with_obs ch l w :
  l `sublist_of` obs ch w → waiters (with_obs ch l w) `sublist_of` waiters w.
Proof.
  intros Hl. unfold waiters.
  destruct ch; simpl in *; repeat (apply sublist_app; [done|]); done.
Qed.

Lemma sound_with_obs ch l w :
  sound w → l `sublist_of` obs ch w → sound (with_obs ch l w).
Proof.
  intros [H1 H2 H3 H4 H5 H6] Hl.
  pose proof (waiters_with_obs ch l w Hl) as Hsub.
  assert (Hn : next_id (with_obs ch l w) = next_id w) by by destruct ch.
  assert (Hr : results (with_obs ch l w) = results w) by by destruct ch.
  assert (Hc : callbacks (with_obs ch l w) = callbacks w) by by destruct ch.
  assert (Hf : fired (with_obs ch l w) = fired w) by by destruct ch.
  constructor; rewrite ?Hn, ?Hr, ?Hc, ?Hf; try done.
  - intros d Hd. apply H3. eapply elem_of_sublist; [exact Hd|exact Hsub].
  - eapply sublist_NoDup; [exact H4|exact Hsub].
Qed.

Lemma wf_with_obs ch l w :
  sound w → l `sublist_of` obs ch w →
  (∀ c d, c ≠ ch → d ∈ obs c w → results w !! d = None) →
  (∀ d, d ∈ l → results w !! d = None) →
  wf (with_obs ch l w).
Proof.
  intros Hs Hl Hoth Hin. split; [by apply sound_with_obs|].
  assert (Hr : results (with_obs ch l w) = results w) by by destruct ch.
  intros d. rewrite Hr, elem_of_waiters. intros [c Hd].
  destruct (decide (c = ch)) as [->|Hne].
  - apply Hin. by destruct ch.
  - apply (Hoth c); [done|]. by destruct c, ch.
Qed.

(** [got_code]: the loop returns, with every Deferred of the live list
    called with the code, and only then is the list emptied. *)
Lemma got_code_spec fuel code w :
  wf w → potential w < fuel →
  ∃ w1,
    for_in fuel _code_observers (λ d, callback d code) 0 (with_code code w)
      = Ret tt w1 ∧
    got_code fuel code w = Ret tt (with_code_observers [] w1) ∧
    LI ChCode [ChVerifier; ChReceived; ChClosed] (Success code)
       (length (_code_observers w1)) w1 ∧
    evolves (with_code code w) w1 ∧
    wf (with_code_observers [] w1).
Proof.
  intros Hwf Hfuel.
  assert (Hwf' : wf (with_code code w)).
  { destruct Hwf as [Hs Hp]. split; [by apply sound_with_code|done]. }
  destruct (for_in_fire ChCode [ChVerifier; ChReceived; ChClosed]
              (Success code) fuel 0 (with_code code w))
    as (w1 & Hl & HLI & He & Hp); [chan_notin|by apply wf_LI| |].
  { change (potential (with_code code w)) with (potential w). lia. }
  exists w1. split_and!; [done| |done|done|].
  - unfold got_code, bind, modify.
    change (for_in fuel _code_observers (λ d, callback d code) 0)
      with (for_in fuel (obs ChCode) (λ d, fire d (Success code)) 0).
    by rewrite Hl.
  - apply (wf_with_obs ChCode [] w1).
    + apply HLI.
    + apply sublist_nil_l.
    + intros c d Hne Hd. destruct HLI as (_ & _ & _ & Hc).
      apply (Hc c); [|done]. destruct c; done || chan_in.
    + intros d Hd. by apply not_elem_of_nil in Hd.
Qed.

Lemma got_verifier_spec fuel verifier w :
  wf w → potential w < fuel →
  ∃ w1,
    for_in fuel _verifier_observers (λ d, callback d verifier) 0
      (with_verifier verifier w) = Ret tt w1 ∧
    got_verifier fuel verifier w = Ret tt (with_verifier_observers [] w1) ∧
    LI ChVerifier [ChCode; ChReceived; ChClosed] (Success verifier)
       (length (_verifier_observers w1)) w1 ∧
    evolves (with_verifier verifier w) w1 ∧
    wf (with_verifier_observers [] w1).
Proof.
  intros Hwf Hfuel.
  assert (Hwf' : wf (with_verifier verifier w)).
  { destruct Hwf as [Hs Hp]. split; [by apply sound_with_verifier|done]. }
  destruct (for_in_fire ChVerifier [ChCode; ChReceived; ChClosed]
              (Success verifier) fuel 0 (with_verifier verifier w))
    as (w1 & Hl & HLI & He & Hp); [chan_notin|by apply wf_LI| |].
  { change (potential (with_verifier verifier w)) with (potential w). lia. }
  exists w1. split_and!; [done| |done|done|].
  - unfold got_verifier, bind, modify.
    change (for_in fuel _verifier_observers (λ d, callback d verifier) 0)
      with (for_in fuel (obs ChVerifier) (λ d, fire d (Success verifier)) 0).
    by rewrite Hl.
  - apply (wf_with_obs ChVerifier [] w1).
    + apply HLI.
    + apply sublist_nil_l.
    + intros c d Hne Hd. destruct HLI as (_ & _ & _ & Hc).
      apply (Hc c); [|done]. destruct c; done || chan_in.
    + intros d Hd. by apply not_elem_of_nil in Hd.
Qed.

(** [closed]: three loops, each over its live list, none emptied. *)
Lemma closed_spec fuel result w :
  wf w → potential w < fuel →
  ∃ w1 w2 w3,
    for_in fuel _verifier_observers (λ d, errback d (close_error result)) 0
      (print result w) = Ret tt w1 ∧
    for_in fuel _received_observers (λ d, errback d (close_error result)) 0
      w1 = Ret tt w2 ∧
    for_in fuel _closed_observers (λ d, callback d result) 0 w2 = Ret tt w3 ∧
    closed fuel result w = Ret tt w3 ∧
    LI ChVerifier [ChReceived; ChClosed; ChCode]
       (Failure (close_error result)) (length (_verifier_observers w1)) w1 ∧
    LI ChReceived [ChClosed; ChCode]
       (Failure (close_error result)) (length (_received_observers w2)) w2 ∧
    LI ChClosed [ChCode] (Success result) (length (_closed_observers w3)) w3 ∧
    evolves w w1 ∧ evolves w1 w2 ∧ evolves w2 w3 ∧
    potential w3 ≤ potential w.
Proof.
  intros Hwf Hfuel.
  assert (Hwf' : wf (print result w)).
  { destruct Hwf as [Hs Hp]. split; [by apply sound_print|done]. }
  destruct (for_in_fire ChVerifier [ChReceived; ChClosed; ChCode]
              (Failure (close_error result)) fuel 0 (print result w))
    as (w1 & Hl1 & HLI1 & He1 & Hp1); [chan_notin|by apply wf_LI| |].
  { change (potential (print result w)) with (potential w). lia. }
  change (potential (print result w)) with (potential w) in Hp1.
  destruct (for_in_fire ChReceived [ChClosed; ChCode]
              (Failure (close_error result)) fuel 0 w1)
    as (w2 & Hl2 & HLI2 & He2 & Hp2);
    [chan_notin|by eapply LI_restart|lia|].
  destruct (for_in_fire ChClosed [ChCode] (Success result) fuel 0 w2)
    as (w3 & Hl3 & HLI3 & He3 & Hp3);
    [chan_notin|by eapply LI_restart|lia|].
  exists w1, w2, w3. split_and!; try done; [| |lia].
  - unfold closed, bind, modify.
    change (for_in fuel _verifier_observers
              (λ d, errback d (close_error result)) 0)
      with (for_in fuel (obs ChVerifier)
              (λ d, fire d (Failure (close_error result))) 0).
    rewrite Hl1.
    change (for_in fuel _received_observers
              (λ d, errback d (close_error result)) 0)
      with (for_in fuel (obs ChReceived)
              (λ d, fire d (Failure (close_error result))) 0).
    rewrite Hl2. exact Hl3.
  - eapply evolves_trans; [apply evolves_print|done].
Qed.

Lemma LI_wf ch chs o w :
  (∀ c, c ≠ ch → c ∈ chs) → LI ch chs o 0 w → wf w.
Proof.
  intros Hall (Hs & _ & Hi & Hc). split; [done|].
  intros d [c Hd]%elem_of_waiters. destruct (decide (c = ch)) as [->|Hne].
  - apply list_elem_of_lookup_1 in Hd as [i Hd]. by rewrite (Hi _ _ Hd).
  - apply (Hc c); [by apply Hall|done].
Qed.

Lemma wf_hsteps w w' : rtc hstep w w' → wf w → wf w'.
Proof.
  intros Hst Hwf.
  apply (LI_wf ChCode [ChVerifier; ChReceived; ChClosed] (Success PNone)).
  { intros c Hne. destruct c; done || chan_in. }
  eapply LI_hsteps; [done|]. by apply wf_LI.
Qed.

(** ** Several calls in a row *)


Lemma when_code_cached w :
  truthy (_code w) = true →
  when_code w = Ret (next_id w) (succeeded (_code w) w).
Proof. intros H. unfold when_code. by rewrite H. Qed.

Lemma when_verifier_unset w :
  truthy (_verifier w) = false →
  when_verifier w = Ret (next_id w) (register ChVerifier w).
Proof. intros H. unfold when_verifier. by rewrite H. Qed.

Lemma when_received_empty w :
  _received_data w = [] →
  when_received w = Ret (next_id w) (register ChReceived w).
Proof. intros H. unfold when_received. by rewrite H. Qed.

Lemma when_received_buffered m rest w :
  _received_data w = m :: rest →
  when_received w
  = Ret (next_id w) (succeeded m (with_received_data rest w)).
Proof. intros H. unfold when_received. by rewrite H. Qed.


(** * The claims *)



(** C8, as the code has it.  The claim fails for a code that Python counts
    as false: after [got_code] with the empty string, [when_code()] takes
    the branch of an unknown code, and returns a pending future registered
    as a new waiter. *)
Lemma late_subscriber_empty_code :
  ∃ w1 w2,
    got_code 1 (PStr "") init = Ret tt w1 ∧
    when_code w1 = Ret 0 w2 ∧
    results w2 !! 0 = None ∧ _code_observers w2 = [0].
Proof. eexists _, _. split_and!; reflexivity. Qed.

(** C8, amended: for every code [c] that Python counts as true, [got_code c]
    returns and a [when_code()] made afterwards returns a future already
    called with the cached [c], once; no observer list changes, so no waiter
    is registered. *)
Theorem late_subscriber (c : PyVal) (fuel : nat) (w : World) :
  wf w → truthy c = true → potential w < fuel →
  ∃ w1 w2,
    got_code fuel c w = Ret tt w1 ∧ _code w1 = c ∧
    when_code w1 = Ret (next_id w1) w2 ∧
    results w1 !! next_id w1 = None ∧
    results w2 !! next_id w1 = Some (Success c) ∧
    times_fired (next_id w1) w2 = 1 ∧
    (∀ ch, obs ch w2 = obs ch w1) ∧ _code w2 = c.
Proof.
  intros Hwf Hc Hfuel.
  destruct (got_code_spec fuel c w Hwf Hfuel) as (w' & Hl & Hg & HLI & He & Hwf1).
  set (w1 := with_code_observers [] w') in *.
  assert (Hcode : _code w1 = c) by apply (ev_code _ _ He).
  assert (Hs2 : sound (succeeded c w1)) by apply sound_succeeded, Hwf1.
  assert (Hres : results (succeeded c w1) !! next_id w1 = Some (Success c))
    by apply lookup_insert_eq.
  exists w1, (succeeded c w1).
  split_and!; [done|done| | |done| |by intros []|done].
  - rewrite when_code_cached by by rewrite Hcode. by rewrite Hcode.
  - by apply (sound_fresh_results w1 (proj1 Hwf1)).
  - by eapply times_fired_once.
Qed.

Lemma late_subscriber_witness :
  ∃ w1 w2,
    got_code 5 (PStr "7-crossover-clockwork") init = Ret tt w1 ∧
    _code w1 = PStr "7-crossover-clockwork" ∧
    when_code w1 = Ret (next_id w1) w2 ∧
    results w1 !! next_id w1 = None ∧
    results w2 !! next_id w1 = Some (Success (PStr "7-crossover-clockwork")) ∧
    times_fired (next_id w1) w2 = 1 ∧
    (∀ ch, obs ch w2 = obs ch w1) ∧ _code w2 = PStr "7-crossover-clockwork".
Proof.
  apply (late_subscriber (PStr "7-crossover-clockwork") 5 init).
  - exact wf_init.
  - reflexivity.
  - vm_compute. lia.
Defined.

(** ** The Received channel *)

Lemma received_buffers p w :
  _received_observers w = [] →
  received p w = Ret tt (with_received_data (_received_data w ++ [p]) w).
Proof. intros H. unfold received. by rewrite H. Qed.

Lemma received_all_buffers ms w :
  _received_observers w = [] →
  received_all ms w = Ret tt (with_received_data (_received_data w ++ ms) w).
Proof.
  revert w. induction ms as [|m ms IH]; intros w Hobs; simpl.
  - rewrite app_nil_r. by destruct w.
  - unfold bind. rewrite (received_buffers m w Hobs). rewrite IH by done.
    simpl. by rewrite <-app_assoc.
Qed.

(** Draining a buffer: as many [when_received()] calls as there are buffered
    messages return fresh futures, called with the messages oldest first. *)
Lemma drain_buffer q w :
  _received_data w = q →
  ∃ w',
    repeat_call (length q) when_received w
      = Ret (seq (next_id w) (length q)) w' ∧
    Forall2 (λ d m, results w' !! d = Some (Success m))
      (seq (next_id w) (length q)) q ∧
    fired w' = fired w ++ zip (seq (next_id w) (length q)) (Success <$> q) ∧
    _received_data w' = [] ∧
    (∀ d, d < next_id w → results w' !! d = results w !! d).
Proof.
  revert w. induction q as [|m q IH]; intros w Hq.
  - exists w. simpl. rewrite app_nil_r. split_and!; done || constructor.
  - destruct (IH (succeeded m (with_received_data q w)) eq_refl)
      as (w' & Hr & Hall & Hf & Hbuf & Hkeep).
    exists w'. simpl. unfold bind at 1.
    rewrite (when_received_buffered m q w Hq).
    unfold bind. rewrite Hr.
    split_and!; [done| | |done|].
    + constructor; [|done]. rewrite Hkeep by (simpl; lia).
      apply lookup_insert_eq.
    + rewrite Hf. simpl. by rewrite <-app_assoc.
    + intros d Hd. rewrite Hkeep by (simpl; lia).
      simpl. apply lookup_insert_ne. lia.
Qed.

(** C2. FIFO delivery on the Received channel.  With no Received waiter
    registered, [received(m1)], [received(m2)], [received(m3)] append the
    three payloads to the buffer, and the [when_received()] calls that
    follow return futures called, in this order, with the payloads buffered
    before and then [m1], [m2], [m3] (with an empty buffer: with exactly
    [m1], [m2], [m3]).  With a waiter pending, [received(p)] pops the oldest
    waiter [d], calls it with [p], once, and appends nothing to the
    buffer. *)
Theorem fifo_received (w : World) (m1 m2 m3 : PyVal)
    (v : World) (d : Did) (rest : list Did) (p : PyVal) :
  _received_observers w = [] →
  wf v → _received_observers v = d :: rest →
  (∃ w1 ds w2,
     received_all [m1; m2; m3] w = Ret tt w1 ∧
     _received_data w1 = _received_data w ++ [m1; m2; m3] ∧
     repeat_call (length (_received_data w ++ [m1; m2; m3])) when_received w1
       = Ret ds w2 ∧
     Forall2 (λ d m, results w2 !! d = Some (Success m))
       ds (_received_data w ++ [m1; m2; m3]) ∧
     fired w2
       = fired w ++ zip ds (Success <$> (_received_data w ++ [m1; m2; m3]))) ∧
  (∃ v',
     received p v = Ret tt v' ∧
     results v !! d = None ∧
     results v' !! d = Some (Success p) ∧ times_fired d v' = 1 ∧
     rest `prefix_of` _received_observers v' ∧
     (d ∉ _received_observers v') ∧
     _received_data v' `suffix_of` _received_data v).
Proof.
  intros Hobs Hwf Hv. split.
  - set (w1 := with_received_data (_received_data w ++ [m1; m2; m3]) w).
    destruct (drain_buffer (_received_data w ++ [m1; m2; m3]) w1 eq_refl)
      as (w2 & Hr & Hall & Hf & _ & _).
    exists w1, (seq (next_id w1) (length (_received_data w ++ [m1; m2; m3]))), w2.
    split_and!; [|done|done|done|done].
    by apply received_all_buffers.
  - destruct Hwf as [Hs Hp].
    assert (Hin : d ∈ obs ChReceived v) by (simpl; rewrite Hv; by left).
    assert (Hpend : results v !! d = None).
    { apply Hp, elem_of_waiters. by exists ChReceived. }
    assert (Hlt : d < next_id v) by by eapply obs_lt.
    set (v1 := with_received_observers rest v).
    assert (Hs1 : sound v1).
    { apply (sound_with_obs ChReceived rest v Hs). simpl. rewrite Hv.
      by apply sublist_cons. }
    destruct (fire_pending d (Success p) v1 Hpend) as (v' & Hf & Hst & _).
    destruct (fire_sound_evolves d (Success p) v1 v' Hs1 Hpend Hlt Hst)
      as (Hs' & He & Hres).
    exists v'. split_and!; [|done|done| | | |].
    + unfold received. by rewrite Hv.
    + by eapply times_fired_once.
    + apply (ev_obs _ _ He ChReceived).
    + intros Hd. destruct (ev_new _ _ He ChReceived d Hd) as [Hold|Hnew].
      * pose proof (obs_nodup ChReceived v (sound_nodup v Hs)) as Hnd.
        simpl in Hnd. rewrite Hv in Hnd. apply NoDup_cons in Hnd as [Hnd _].
        by apply Hnd.
      * simpl in Hnew. lia.
    + apply (ev_data _ _ He).
Qed.

Lemma fifo_received_witness :
  (∃ w1 ds w2,
     received_all [PStr "m1"; PStr "m2"; PStr "m3"] init = Ret tt w1 ∧
     _received_data w1
       = _received_data init ++ [PStr "m1"; PStr "m2"; PStr "m3"] ∧
     repeat_call
       (length (_received_data init ++ [PStr "m1"; PStr "m2"; PStr "m3"]))
       when_received w1 = Ret ds w2 ∧
     Forall2 (λ d m, results w2 !! d = Some (Success m))
       ds (_received_data init ++ [PStr "m1"; PStr "m2"; PStr "m3"]) ∧
     fired w2
       = fired init
         ++ zip ds (Success <$> (_received_data init
                                 ++ [PStr "m1"; PStr "m2"; PStr "m3"]))) ∧
  (∃ v',
     received (PStr "m1") (register ChReceived init) = Ret tt v' ∧
     results (register ChReceived init) !! 0 = None ∧
     results v' !! 0 = Some (Success (PStr "m1")) ∧ times_fired 0 v' = 1 ∧
     [] `prefix_of` _received_observers v' ∧
     (0 ∉ _received_observers v') ∧
     _received_data v' `suffix_of` _received_data (register ChReceived init)).
Proof.
  apply (fifo_received init (PStr "m1") (PStr "m2") (PStr "m3")
           (register ChReceived init) 0 [] (PStr "m1")).
  - reflexivity.
  - eapply wf_hsteps; [apply rtc_once, hs_register|exact wf_init].
  - reflexivity.
Defined.

(** ** Closing *)

Lemma wf_four_waiters : wf four_waiters.
Proof.
  eapply wf_hsteps; [|exact wf_init].
  do 3 (eapply rtc_r; [|apply hs_register]). apply rtc_once, hs_register.
Qed.

(** C4, evaluated: a future returned by [when_code()] before the code is
    known is still pending, and still listed, after [closed(result)] has
    delivered the terminal result; [closed] has no loop over
    [_code_observers]. *)
Theorem closed_leaves_code_waiter_pending :
  ∃ w1 w2,
    when_code init = Ret 0 w1 ∧
    closed 5 (PStr "happy") w1 = Ret tt w2 ∧
    results w2 !! 0 = None ∧ times_fired 0 w2 = 0 ∧ _code_observers w2 = [0].
Proof. eexists _, _. split_and!; reflexivity. Qed.

(** C5, as the code has it: after [closed(result)], [when_verifier()] and
    [when_received()] return futures that are pending and registered as
    waiters; nothing calls them with the close error. *)
Lemma await_after_close_stays_pending :
  ∃ w1 w2 w3,
    closed 5 (PStr "happy") init = Ret tt w1 ∧
    when_verifier w1 = Ret 0 w2 ∧
    when_received w2 = Ret 1 w3 ∧
    results w3 !! 0 = None ∧ results w3 !! 1 = None ∧
    _verifier_observers w3 = [0] ∧ _received_observers w3 = [1].
Proof. eexists _, _, _. split_and!; reflexivity. Qed.

(** C5, amended: [closed] records the closure nowhere; a [when_verifier()]
    made after it with no cached verifier, and a [when_received()] made
    after it with an empty buffer, return a fresh future that is pending,
    was never called, and is appended to the waiter list of its channel. *)
Theorem await_after_close (result : PyVal) (fuel : nat) (w : World) :
  wf w → potential w < fuel →
  ∃ w1,
    closed fuel result w = Ret tt w1 ∧
    (truthy (_verifier w1) = false →
     ∃ w2, when_verifier w1 = Ret (next_id w1) w2 ∧
           results w2 !! next_id w1 = None ∧
           times_fired (next_id w1) w2 = 0 ∧
           _verifier_observers w2 = _verifier_observers w1 ++ [next_id w1]) ∧
    (_received_data w1 = [] →
     ∃ w2, when_received w1 = Ret (next_id w1) w2 ∧
           results w2 !! next_id w1 = None ∧
           times_fired (next_id w1) w2 = 0 ∧
           _received_observers w2 = _received_observers w1 ++ [next_id w1]).
Proof.
  intros Hwf Hfuel.
  destruct (closed_spec fuel result w Hwf Hfuel)
    as (w1 & w2 & w3 & _ & _ & _ & Hc & _ & _ & HLI3 & _).
  assert (Hs3 : sound w3) by apply HLI3.
  assert (Hfresh : results w3 !! next_id w3 = None)
    by by apply (sound_fresh_results w3 Hs3).
  exists w3. split_and!; [done| |].
  - intros Hv. exists (register ChVerifier w3).
    split_and!; [by apply when_verifier_unset|done| |done].
    apply times_fired_pending; [by apply sound_register|done].
  - intros Hb. exists (register ChReceived w3).
    split_and!; [by apply when_received_empty|done| |done].
    apply times_fired_pending; [by apply sound_register|done].
Qed.

Lemma await_after_close_witness :
  ∃ w1,
    closed 9 (PStr "happy") four_waiters = Ret tt w1 ∧
    (truthy (_verifier w1) = false →
     ∃ w2, when_verifier w1 = Ret (next_id w1) w2 ∧
           results w2 !! next_id w1 = None ∧
           times_fired (next_id w1) w2 = 0 ∧
           _verifier_observers w2 = _verifier_observers w1 ++ [next_id w1]) ∧
    (_received_data w1 = [] →
     ∃ w2, when_received w1 = Ret (next_id w1) w2 ∧
           results w2 !! next_id w1 = None ∧
           times_fired (next_id w1) w2 = 0 ∧
           _received_observers w2 = _received_observers w1 ++ [next_id w1]).
Proof.
  apply (await_after_close (PStr "happy") 9 four_waiters).
  - exact wf_four_waiters.
  - vm_compute. lia.
Defined.

(** ** Re-entrant registration *)

(** C6, as the code has it.  A consumer attaches to its [when_verifier()]
    future a continuation that calls [when_verifier()] again.  [closed]
    iterates over the stored list itself: the waiter registered from inside
    the loop (Deferred 1, which did not exist when [closed] was called) is
    visited by the iteration in progress and called with the error, and the
    list is not emptied.  The same happens in [got_code] for a code that
    Python counts as false. *)
Lemma reentrant_waiter_is_visited :
  ∃ w1 w2 v1 v2,
    step 1 (IConsumer CWhenVerifier [CWhenVerifier]) init = Ret tt w1 ∧
    _verifier_observers w1 = [0] ∧ next_id w1 = 1 ∧
    closed 5 (PStr "happy") w1 = Ret tt w2 ∧
    _verifier_observers w2 = [0; 1] ∧
    fired w2 = [(0, Failure (PWormholeClosed (PStr "happy")));
                (1, Failure (PWormholeClosed (PStr "happy")))] ∧
    step 1 (IConsumer CWhenCode [CWhenCode]) init = Ret tt v1 ∧
    _code_observers v1 = [0] ∧ next_id v1 = 1 ∧
    got_code 5 (PStr "") v1 = Ret tt v2 ∧
    fired v2 = [(0, Success (PStr "")); (1, Success (PStr ""))].
Proof. eexists _, _, _, _. split_and!; reflexivity. Qed.

(** ** A handler that attaches itself again *)

Lemma run_handler_drop fuel h k w :
  run_handler (λ _, false) fuel h k w = run_calls k w.
Proof.
  revert w. induction k as [|c k IH]; intros w.
  - by destruct fuel.
  - destruct fuel; simpl; unfold bind; destruct (call c w) as [r w1|e w1|];
      try done; destruct r; simpl; apply IH.
Qed.

Lemma fire_h_drop fuel d o w : fire_h (λ _, false) fuel d o w = fire d o w.
Proof.
  unfold fire_h, fire. destruct (results w !! d); [done|].
  apply run_handler_drop.
Qed.

Lemma for_in_ext fuel lst (body body' : Did → M unit) i w :
  (∀ d u, body d u = body' d u) →
  for_in fuel lst body i w = for_in fuel lst body' i w.
Proof.
  intros Hb. revert i w. induction fuel as [|fuel IH]; intros i w; simpl;
    [done|].
  destruct (lst w !! i) as [d|]; [|done]. rewrite Hb.
  destruct (body' d w); [apply IH|done|done].
Qed.

(** With handlers that drop every future they obtain, [closed_h] is
    [closed]. *)
Lemma closed_h_drop fuel result w :
  closed_h (λ _, false) fuel result w = closed fuel result w.
Proof.
  unfold closed_h, closed, bind, modify, errback, callback.
  rewrite (for_in_ext fuel _verifier_observers _
             (λ d, fire d (Failure (close_error result))))
    by (intros; apply fire_h_drop).
  destruct (for_in fuel _verifier_observers _ 0 (print result w))
    as [[] w1|e w1|]; [|done|done].
  rewrite (for_in_ext fuel _received_observers _
             (λ d, fire d (Failure (close_error result))))
    by (intros; apply fire_h_drop).
  destruct (for_in fuel _received_observers _ 0 w1)
    as [[] w2|e w2|]; [|done|done].
  apply for_in_ext. intros. apply fire_h_drop.
Qed.

Lemma fire_h_reattaching again fuel o i w :
  again CWhenVerifier = true → reattaching i w →
  ∃ d w', _verifier_observers w !! i = Some d ∧
          fire_h again fuel d o w = Ret tt w' ∧ reattaching (S i) w'.
Proof.
  intros Hag (Hlen & Hv & Hfresh & d & Hd & Hlt & Hres & Hcb).
  destruct (Hfresh (next_id w)) as [Hr0 Hc0]; [lia|].
  exists d, (attach (next_id w) [CWhenVerifier]
               (register ChVerifier (mark d o w))).
  split_and!; [done| |].
  - unfold fire_h. rewrite Hres, Hcb. simpl.
    destruct fuel; simpl; unfold bind, when_verifier; simpl; rewrite Hv;
      simpl; rewrite Hag; simpl; rewrite lookup_insert_ne by lia;
      rewrite Hr0; done.
  - split_and!.
    + simpl. rewrite length_app, Hlen. simpl. lia.
    + done.
    + intros n Hn. simpl in Hn. destruct (Hfresh n) as [Hrn Hcn]; [lia|].
      simpl. rewrite !lookup_insert_ne by lia.
      rewrite lookup_delete_ne by lia. done.
    + exists (next_id w). simpl. split_and!.
      * rewrite lookup_app_r by lia. rewrite Hlen, Nat.sub_diag. done.
      * lia.
      * rewrite lookup_insert_ne by lia. done.
      * rewrite lookup_insert_eq. rewrite lookup_delete_ne by lia.
        by rewrite Hc0.
Qed.

(** The Verifier loop of [closed] never ends on such a state: every fuel
    is exhausted. *)
Lemma verifier_loop_never_ends again fuel0 o fuel i w :
  again CWhenVerifier = true → reattaching i w →
  for_in fuel _verifier_observers (λ d, fire_h again fuel0 d o) i w = Timeout.
Proof.
  intros Hag. revert i w. induction fuel as [|fuel IH]; intros i w Hre; [done|].
  destruct (fire_h_reattaching again fuel0 o i w Hag Hre)
    as (d & w' & Hd & Hf & Hre').
  simpl. rewrite Hd, Hf. by apply IH.
Qed.

Lemma reattaching_hanging_session result :
  reattaching 0 (print result hanging_session).
Proof.
  split_and!; [done|done| |].
  - intros n Hn. simpl in *. split.
    + apply lookup_empty.
    + rewrite lookup_insert_ne by lia. apply lookup_empty.
  - exists 0. split_and!; [reflexivity|simpl; lia|reflexivity|reflexivity].
Qed.

(** C3, evaluated.  A consumer holds a [when_verifier()] future (Deferred
    0) to which it attached [def h(_): w.when_verifier().addBoth(h)], and a
    [when_received()] future (Deferred 1), both pending.  [closed(result)]
    never returns: each [errback] of its first loop runs [h], which appends
    a new pending waiter carrying [h] to the list being iterated, so the
    loop over [_verifier_observers] exhausts every fuel.  The loop over
    [_received_observers] is never reached and the Received waiter is
    never called.  With a handler that drops the future it obtains,
    [closed_h] is [closed], and the same call returns and has called the
    Received waiter with the error. *)
Theorem closed_never_returns (fuel : nat) (result : PyVal) :
  _verifier_observers hanging_session = [0] ∧
  callbacks hanging_session !! 0 = Some [CWhenVerifier] ∧
  _received_observers hanging_session = [1] ∧
  results hanging_session !! 0 = None ∧
  results hanging_session !! 1 = None ∧
  for_in fuel _verifier_observers
    (λ d, fire_h (λ _, true) fuel d (Failure (close_error result))) 0
    (print result hanging_session) = Timeout ∧
  closed_h (λ _, true) fuel result hanging_session = Timeout ∧
  (∀ fuel' u, closed_h (λ _, false) fuel' result u = closed fuel' result u) ∧
  ∃ w', closed_h (λ _, false) 9 result hanging_session = Ret tt w' ∧
        results w' !! 1 = Some (Failure (close_error result)).
Proof.
  assert (Hloop : for_in fuel _verifier_observers
            (λ d, fire_h (λ _, true) fuel d (Failure (close_error result))) 0
            (print result hanging_session) = Timeout).
  { apply verifier_loop_never_ends; [done|].
    apply reattaching_hanging_session. }
  split_and!; try done.
  - unfold closed_h, bind, modify. by rewrite Hloop.
  - intros fuel' u. apply closed_h_drop.
  - eexists. split; [reflexivity|]. reflexivity.
Qed.

(** ** More fuel changes nothing *)

Lemma for_in_mono fuel fuel' lst body i w w' :
  for_in fuel lst body i w = Ret tt w' → fuel ≤ fuel' →
  for_in fuel' lst body i w = Ret tt w'.
Proof.
  revert fuel' i w. induction fuel as [|fuel IH]; intros fuel' i w Hr Hle.
  - done.
  - destruct fuel' as [|fuel']; [lia|]. simpl in *.
    destruct (lst w !! i) as [d|]; [|done].
    destruct (body d w) as [[] w1|e w1|]; [|done|done].
    apply IH; [done|lia].
Qed.

Lemma got_code_mono fuel fuel' code w w' :
  got_code fuel code w = Ret tt w' → fuel ≤ fuel' →
  got_code fuel' code w = Ret tt w'.
Proof.
  unfold got_code, bind, modify. intros Hr Hle.
  destruct (for_in fuel _code_observers _ 0 (with_code code w))
    as [[] w1|e w1|] eqn:Hl; [|done|done].
  by rewrite (for_in_mono _ _ _ _ _ _ _ Hl Hle).
Qed.

Lemma got_verifier_mono fuel fuel' verifier w w' :
  got_verifier fuel verifier w = Ret tt w' → fuel ≤ fuel' →
  got_verifier fuel' verifier w = Ret tt w'.
Proof.
  unfold got_verifier, bind, modify. intros Hr Hle.
  destruct (for_in fuel _verifier_observers _ 0 (with_verifier verifier w))
    as [[] w1|e w1|] eqn:Hl; [|done|done].
  by rewrite (for_in_mono _ _ _ _ _ _ _ Hl Hle).
Qed.

(** ** Every state of a session not yet closed is well formed *)

Lemma wf_attach d k w : wf w → d < next_id w → wf (attach d k w).
Proof.
  intros [[H1 H2 H3 H4 H5 H6] Hp] Hlt. split; [|done].
  constructor; simpl; try done.
  intros d' Hd'. rewrite lookup_insert_ne by lia. auto.
Qed.

Lemma wf_received p w w' : wf w → received p w = Ret tt w' → wf w'.
Proof.
  intros Hwf. unfold received.
  destruct (_received_observers w) as [|d rest] eqn:Hobs.
  - intros [= <-]. destruct Hwf as [Hs Hp]. split; [by apply sound_pop|done].
  - destruct Hwf as [Hs Hp].
    assert (Hin : d ∈ obs ChReceived w) by (simpl; rewrite Hobs; by left).
    assert (Hpend : results w !! d = None).
    { apply Hp, elem_of_waiters. by exists ChReceived. }
    assert (Hlt : d < next_id w) by by eapply obs_lt.
    set (w1 := with_received_observers rest w).
    assert (Hsub : rest `sublist_of` obs ChReceived w).
    { simpl. rewrite Hobs. by apply sublist_cons. }
    assert (Hs1 : sound w1) by by apply (sound_with_obs ChReceived rest w).
    destruct (fire_pending d (Success p) w1 Hpend) as (w2 & Hf & Hst & _).
    unfold callback. rewrite Hf. intros [= <-].
    eapply wf_hsteps; [done|]. split; [by apply sound_mark|].
    intros d' Hd'. simpl.
    assert (Hd'' : d' ∈ waiters w1) by done.
    rewrite lookup_insert_ne.
    + apply Hp. eapply elem_of_sublist; [exact Hd''|].
      by apply (waiters_with_obs ChReceived).
    + intros ->. apply elem_of_waiters in Hd'' as [c Hc].
      destruct (decide (c = ChReceived)) as [->|Hne].
      * pose proof (obs_nodup ChReceived w (sound_nodup w Hs)) as Hnd.
        simpl in Hnd, Hc. rewrite Hobs in Hnd.
        apply NoDup_cons in Hnd as [Hnd _]. by apply Hnd.
      * eapply (obs_disjoint c ChReceived d' w); [apply Hs|done| |done].
        by destruct c.
Qed.

Lemma wf_step fuel i w w' :
  wf w → before_close i → step fuel i w = Ret tt w' → wf w'.
Proof.
  intros Hwf Hi Hstep. destruct i as [c k|code|verifier|p|result]; simpl in *.
  - destruct (call_spec c w) as (r & w1 & Hc & Hst & _ & _ & Hr).
    unfold bind in Hstep. rewrite Hc in Hstep.
    pose proof (wf_hsteps _ _ Hst Hwf) as Hwf1.
    destruct r as [d|]; [|by injection Hstep as <-].
    destruct (Hr d eq_refl) as [-> Hn]. unfold addBoth in Hstep.
    destruct (results w1 !! next_id w) eqn:Hres.
    + destruct (run_calls_spec k w1) as (w2 & Hrun & Hst2 & _).
      rewrite Hrun in Hstep. injection Hstep as <-. by eapply wf_hsteps.
    + injection Hstep as <-. apply (wf_attach (next_id w) k w1 Hwf1). lia.
  - destruct (got_code_spec (fuel + S (potential w)) code w Hwf)
      as (w1 & _ & Hg & _ & _ & Hwf1); [lia|].
    rewrite (got_code_mono _ _ _ _ _ Hstep) in Hg by lia.
    by injection Hg as ->.
  - destruct (got_verifier_spec (fuel + S (potential w)) verifier w Hwf)
      as (w1 & _ & Hg & _ & _ & Hwf1); [lia|].
    rewrite (got_verifier_mono _ _ _ _ _ Hstep) in Hg by lia.
    by injection Hg as ->.
  - by eapply wf_received.
  - done.
Qed.

(** Whatever the consumer called and attached, and whatever the Boss
    delivered before it closes the session, every Deferred held in an
    observer list is pending and held once. *)
Lemma reachable_wf fuel t w :
  Forall before_close t → run fuel t init = Ret [] w → wf w.
Proof.
  intros Ht. revert w. generalize wf_init. generalize init.
  induction Ht as [|i t Hi Ht IH]; intros w0 Hwf0 w; simpl.
  - by intros [= <-].
  - destruct (step fuel i w0) as [[] w1|e w1|] eqn:Hs; [| |done].
    + apply IH. by eapply wf_step.
    + by destruct (run fuel t w1).
Qed.

Lemma reentrant_session_reached :
  run 1 [IConsumer CWhenVerifier [CWhenVerifier]] init
  = Ret [] reentrant_session.
Proof. reflexivity. Qed.

Lemma wf_reentrant_session : wf reentrant_session.
Proof.
  eapply (reachable_wf 1 [IConsumer CWhenVerifier [CWhenVerifier]]).
  - by repeat constructor.
  - exact reentrant_session_reached.
Qed.

(** ** A second [closed] *)

Lemma for_in_called fuel ch o j d x w :
  obs ch w !! j = Some d → results w !! d = Some x →
  for_in (S fuel) (obs ch) (λ d, fire d o) j w = Raise AlreadyCalledError w.
Proof. intros Hd Hx. simpl. rewrite Hd. by rewrite (fire_called d o x w). Qed.





(** ** The buffer across [closed] *)

Lemma call_keeps_buffer c w :
  c ≠ CWhenReceived →
  ∃ r w', call c w = Ret r w' ∧ _received_data w' = _received_data w ∧
          callbacks w' = callbacks w.
Proof.
  intros Hc.
  destruct c; try done; unfold call, bind, when_code, when_verifier,
    close, allocate_code, input_code, set_code, send, debug_set_trace,
    modify; simpl.
  - destruct (truthy (_code w)); by eexists _, _.
  - destruct (truthy (_verifier w)); by eexists _, _.
  - by eexists _, _.
  - by eexists _, _.
  - by eexists _, _.
  - by eexists _, _.
  - by eexists _, _.
  - by eexists _, _.
Qed.

Lemma run_calls_keeps_buffer k w :
  CWhenReceived ∉ k →
  ∃ w', run_calls k w = Ret tt w' ∧ _received_data w' = _received_data w ∧
        callbacks w' = callbacks w.
Proof.
  revert w. induction k as [|c k IH]; intros w Hk; simpl.
  - by exists w.
  - apply not_elem_of_cons in Hk as [Hc Hk].
    destruct (call_keeps_buffer c w) as (r & w1 & Hcall & Hb1 & Hc1);
      [congruence|].
    destruct (IH w1 Hk) as (w2 & Hrun & Hb2 & Hc2).
    exists w2. unfold bind. rewrite Hcall, Hrun.
    split_and!; [done|congruence|congruence].
Qed.

Lemma fire_eq d o w :
  fire d o w = match results w !! d with
               | Some _ => Raise AlreadyCalledError w
               | None => run_calls (default [] (callbacks w !! d)) (mark d o w)
               end.
Proof. done. Qed.

Lemma fire_keeps_buffer d o w w' :
  no_reentrant_receive w → final (fire d o w) = Some w' →
  _received_data w' = _received_data w ∧ no_reentrant_receive w'.
Proof.
  intros Hq. rewrite fire_eq. destruct (results w !! d) as [x|].
  - by intros [= <-].
  - assert (Hk : CWhenReceived ∉ default [] (callbacks w !! d)).
    { destruct (callbacks w !! d) as [k|] eqn:Hk; simpl.
      - by eapply Hq.
      - apply not_elem_of_nil. }
    destruct (run_calls_keeps_buffer _ (mark d o w) Hk) as (w2 & Hr & Hb & Hc).
    rewrite Hr. intros [= <-]. split; [done|].
    intros d' k'. rewrite Hc. simpl. intros Hl.
    apply lookup_delete_Some in Hl as [_ Hl]. by eapply Hq.
Qed.

Lemma for_in_keeps_buffer fuel lst o i w w' :
  no_reentrant_receive w →
  final (for_in fuel lst (λ d, fire d o) i w) = Some w' →
  _received_data w' = _received_data w ∧ no_reentrant_receive w'.
Proof.
  revert i w. induction fuel as [|fuel IH]; intros i w Hq; simpl; [done|].
  destruct (lst w !! i) as [d|]; [|by intros [= <-]].
  destruct (fire d o w) as [[] w1|e w1|] eqn:Hf; [| |done].
  - destruct (fire_keeps_buffer d o w w1 Hq) as [Hb Hq1]; [by rewrite Hf|].
    intros Hfin. destruct (IH _ _ Hq1 Hfin) as [Hb' Hq'].
    split; [congruence|done].
  - intros [= <-]. apply (fire_keeps_buffer d o w w1 Hq). by rewrite Hf.
Qed.

Lemma closed_keeps_buffer fuel result w w' :
  no_reentrant_receive w → closed fuel result w = Ret tt w' →
  _received_data w' = _received_data w.
Proof.
  intros Hq. unfold closed, bind, modify.
  destruct (for_in fuel _verifier_observers _ 0 (print result w))
    as [[] w1|e w1|] eqn:H1; [|done|done].
  destruct (for_in_keeps_buffer fuel _verifier_observers
              (Failure (close_error result)) 0 (print result w) w1 Hq
              (f_equal final H1)) as [Hb1 Hq1].
  destruct (for_in fuel _received_observers _ 0 w1)
    as [[] w2|e w2|] eqn:H2; [|done|done].
  destruct (for_in_keeps_buffer fuel _received_observers
              (Failure (close_error result)) 0 w1 w2 Hq1
              (f_equal final H2)) as [Hb2 Hq2].
  intros H3.
  destruct (for_in_keeps_buffer fuel _closed_observers
              (Success result) 0 w2 w' Hq2 (f_equal final H3)) as [Hb3 _].
  rewrite Hb3, Hb2, Hb1. done.
Qed.

(** C10. Messages buffered before closure survive it.  On a session not yet
    closed, [closed(result)] returns and never adds to the buffer; when no
    continuation queued by the consumer itself calls [when_received()], the
    buffer is exactly as it was.  Whatever is buffered after closure is
    still delivered: [when_received()] returns a future called with the
    oldest buffered payload as a success value, and removes it from the
    buffer. *)
Theorem buffer_survives_close (result : PyVal) (fuel : nat) (w : World) :
  wf w → potential w < fuel →
  ∃ w1,
    closed fuel result w = Ret tt w1 ∧
    _received_data w1 `suffix_of` _received_data w ∧
    (no_reentrant_receive w → _received_data w1 = _received_data w) ∧
    (∀ m rest, _received_data w1 = m :: rest →
       ∃ w2, when_received w1 = Ret (next_id w1) w2 ∧
             results w2 !! next_id w1 = Some (Success m) ∧
             times_fired (next_id w1) w2 = 1 ∧
             _received_data w2 = rest).
Proof.
  intros Hwf Hfuel.
  destruct (closed_spec fuel result w Hwf Hfuel)
    as (w1 & w2 & w3 & _ & _ & _ & Hc & _ & _ & HLI3 & He1 & He2 & He3 & _).
  assert (Hs3 : sound w3) by apply HLI3.
  exists w3. split_and!; [done| | |].
  - etrans; [apply (ev_data _ _ He3)|].
    etrans; [apply (ev_data _ _ He2)|apply (ev_data _ _ He1)].
  - intros Hq. by eapply closed_keeps_buffer.
  - intros m rest Hbuf. exists (succeeded m (with_received_data rest w3)).
    assert (Hres : results (succeeded m (with_received_data rest w3))
                     !! next_id w3 = Some (Success m))
      by apply lookup_insert_eq.
    split_and!; [by apply when_received_buffered|done| |done].
    eapply times_fired_once; [|done].
    by apply sound_succeeded, sound_pop.
Qed.

Lemma wf_buffered_session : wf buffered_session.
Proof.
  assert (H : wf (register ChClosed (register ChVerifier init))).
  { eapply wf_hsteps; [|exact wf_init].
    eapply rtc_l; apply hs_register || apply rtc_once, hs_register. }
  destruct H as [Hs Hp]. split; [by apply sound_pop|done].
Qed.

Lemma buffer_survives_close_witness :
  ∃ w1,
    closed 9 (PStr "happy") buffered_session = Ret tt w1 ∧
    _received_data w1 `suffix_of` _received_data buffered_session ∧
    (no_reentrant_receive buffered_session →
     _received_data w1 = _received_data buffered_session) ∧
    (∀ m rest, _received_data w1 = m :: rest →
       ∃ w2, when_received w1 = Ret (next_id w1) w2 ∧
             results w2 !! next_id w1 = Some (Success m) ∧
             times_fired (next_id w1) w2 = 1 ∧
             _received_data w2 = rest).
Proof.
  apply (buffer_survives_close (PStr "happy") 9 buffered_session).
  - exact wf_buffered_session.
  - vm_compute. lia.
Defined.

(** ** The command surface of the two frontends *)

(** C7, evaluated.  [allocate_code], [input_code], [set_code], [send] and
    [close] are forwarded by both frontends to the same Boss method with
    the same arguments.  [debug_set_trace] is not: the delegated frontend
    calls [self._boss.set_trace], the deferred frontend calls
    [self._boss._set_trace], with the same arguments. *)
Theorem debug_set_trace_forwards_differ
    (client_name : PyVal) (which logger : option PyVal) :
  (∀ c, is_command c = true →
        (∀ n w l, c ≠ CDebugSetTrace n w l) →
        delegated_forwards c = deferred_forwards c ∧
        length (deferred_forwards c) = 1) ∧
  delegated_forwards (CDebugSetTrace client_name which logger)
  = [Boss.set_trace client_name
       (default (PStr "B N M S O K R RC NL C T") which)
       (default _log logger)] ∧
  deferred_forwards (CDebugSetTrace client_name which logger)
  = [Boss._set_trace client_name
       (default (PStr "B N M S O K R RC NL C T") which)
       (default _log logger)] ∧
  delegated_forwards (CDebugSetTrace client_name which logger)
  ≠ deferred_forwards (CDebugSetTrace client_name which logger).
Proof.
  split_and!; [|done|done|done].
  intros c Hc Hne. destruct c; try done. exfalso. by eapply Hne.
Qed.

(** * Further properties of the code *)

(** ** What every input keeps, whatever its outcome *)

Lemma exclusive_call c w r w' :
  exclusive w → call c w = Ret r w' → exclusive w'.
Proof.
  intros Hx.
  destruct c; unfold call, bind, when_code, when_verifier, when_received,
    close, allocate_code, input_code, set_code, send, debug_set_trace,
    modify; simpl.
  - destruct (truthy (_code w)); by intros [= <- <-].
  - destruct (truthy (_verifier w)); by intros [= <- <-].
  - destruct (_received_data w) as [|m rest] eqn:Hbuf; intros [= <- <-].
    + by right.
    + destruct Hx as [Hx|Hx]; [by left|congruence].
  - by intros [= <- <-].
  - by intros [= <- <-].
  - by intros [= <- <-].
  - by intros [= <- <-].
  - by intros [= <- <-].
  - by intros [= <- <-].
Qed.

Lemma session_ok_call c w r w' :
  session_ok w → call c w = Ret r w' → session_ok w'.
Proof.
  intros [Hs Hx] Hc. split; [|by eapply exclusive_call].
  destruct (call_spec c w) as (r' & w'' & Hc' & Hst & _).
  rewrite Hc in Hc'. injection Hc' as <- <-.
  by apply (hsteps_sound_evolves _ _ Hst).
Qed.

Lemma session_ok_run_calls k w :
  session_ok w → ∃ w', run_calls k w = Ret tt w' ∧ session_ok w'.
Proof.
  revert w. induction k as [|c k IH]; intros w Hok; simpl.
  - by exists w.
  - destruct (call_spec c w) as (r & w1 & Hc & _).
    destruct (IH w1) as (w2 & Hr & Hok2); [by eapply session_ok_call|].
    exists w2. unfold bind. by rewrite Hc, Hr.
Qed.

Lemma session_ok_fire (d : Did) o w w' :
  session_ok w → d < next_id w → final (fire d o w) = Some w' →
  session_ok w'.
Proof.
  intros [Hs Hx] Hlt. rewrite fire_eq.
  destruct (results w !! d) as [x|] eqn:Hres.
  - simpl. by intros [= <-].
  - destruct (session_ok_run_calls (default [] (callbacks w !! d))
                (mark d o w)) as (w2 & Hr & Hok2).
    { split; [by apply sound_mark|done]. }
    rewrite Hr. simpl. by intros [= <-].
Qed.

Lemma session_ok_for_in fuel ch o i w w' :
  session_ok w →
  final (for_in fuel (obs ch) (λ d, fire d o) i w) = Some w' →
  session_ok w'.
Proof.
  revert i w. induction fuel as [|fuel IH]; intros i w Hok; simpl; [done|].
  destruct (obs ch w !! i) as [d|] eqn:Hd; [|by intros [= <-]].
  assert (Hlt : d < next_id w).
  { eapply obs_lt; [apply Hok|]. by eapply list_elem_of_lookup_2. }
  destruct (fire d o w) as [[] w1|e w1|] eqn:Hf; [| |done].
  - apply IH. eapply session_ok_fire; [done|done|by rewrite Hf].
  - intros [= <-]. eapply session_ok_fire; [done|done|by rewrite Hf].
Qed.

Lemma session_ok_with_obs ch l w :
  session_ok w → l `sublist_of` obs ch w →
  (ch = ChReceived → l = [] ∨ _received_data w = []) →
  session_ok (with_obs ch l w).
Proof.
  intros [Hs Hx] Hl Hr. split; [by apply sound_with_obs|].
  destruct ch; try done. destruct (Hr eq_refl); [by left|by right].
Qed.

Lemma session_ok_got_code fuel code w w' :
  session_ok w → final (got_code fuel code w) = Some w' → session_ok w'.
Proof.
  intros [Hs Hx]. unfold got_code, bind, modify.
  change (for_in fuel _code_observers (λ d, callback d code) 0)
    with (for_in fuel (obs ChCode) (λ d, fire d (Success code)) 0).
  destruct (for_in fuel (obs ChCode) _ 0 (with_code code w))
    as [[] w1|e w1|] eqn:Hl; [| |done].
  - intros [= <-].
    assert (Hok1 : session_ok w1).
    { eapply session_ok_for_in; [|by rewrite Hl].
      split; [by apply sound_with_code|done]. }
    apply (session_ok_with_obs ChCode [] w1 Hok1); [apply sublist_nil_l|done].
  - intros [= <-]. eapply session_ok_for_in; [|by rewrite Hl].
    split; [by apply sound_with_code|done].
Qed.

Lemma session_ok_got_verifier fuel verifier w w' :
  session_ok w → final (got_verifier fuel verifier w) = Some w' →
  session_ok w'.
Proof.
  intros [Hs Hx]. unfold got_verifier, bind, modify.
  change (for_in fuel _verifier_observers (λ d, callback d verifier) 0)
    with (for_in fuel (obs ChVerifier) (λ d, fire d (Success verifier)) 0).
  destruct (for_in fuel (obs ChVerifier) _ 0 (with_verifier verifier w))
    as [[] w1|e w1|] eqn:Hl; [| |done].
  - intros [= <-].
    assert (Hok1 : session_ok w1).
    { eapply session_ok_for_in; [|by rewrite Hl].
      split; [by apply sound_with_verifier|done]. }
    apply (session_ok_with_obs ChVerifier [] w1 Hok1);
      [apply sublist_nil_l|done].
  - intros [= <-]. eapply session_ok_for_in; [|by rewrite Hl].
    split; [by apply sound_with_verifier|done].
Qed.

Lemma session_ok_received p w w' :
  session_ok w → final (received p w) = Some w' → session_ok w'.
Proof.
  intros [Hs Hx]. unfold received.
  destruct (_received_observers w) as [|d rest] eqn:Hobs.
  - intros [= <-]. split; [by apply sound_pop|]. left. exact Hobs.
  - assert (Hbuf : _received_data w = []).
    { destruct Hx as [Hx|Hx]; [congruence|done]. }
    assert (Hlt : d < next_id w).
    { apply (obs_lt ChReceived d w Hs). simpl. rewrite Hobs. by left. }
    apply (session_ok_fire d (Success p)); [|done].
    apply (session_ok_with_obs ChReceived rest w); [done| |by right].
    simpl. rewrite Hobs. by apply sublist_cons.
Qed.

Lemma session_ok_closed fuel result w w' :
  session_ok w → final (closed fuel result w) = Some w' → session_ok w'.
Proof.
  intros [Hs Hx]. unfold closed, bind, modify.
  change (for_in fuel _verifier_observers
            (λ d, errback d (close_error result)) 0)
    with (for_in fuel (obs ChVerifier)
            (λ d, fire d (Failure (close_error result))) 0).
  change (for_in fuel _received_observers
            (λ d, errback d (close_error result)) 0)
    with (for_in fuel (obs ChReceived)
            (λ d, fire d (Failure (close_error result))) 0).
  change (for_in fuel _closed_observers (λ d, callback d result) 0)
    with (for_in fuel (obs ChClosed) (λ d, fire d (Success result)) 0).
  assert (Hok0 : session_ok (print result w)).
  { split; [by apply sound_print|done]. }
  destruct (for_in fuel (obs ChVerifier) _ 0 (print result w))
    as [[] w1|e w1|] eqn:H1; [| |done].
  2:{ intros [= <-]. eapply session_ok_for_in; [exact Hok0|by rewrite H1]. }
  assert (Hok1 : session_ok w1).
  { eapply session_ok_for_in; [exact Hok0|by rewrite H1]. }
  destruct (for_in fuel (obs ChReceived) _ 0 w1)
    as [[] w2|e w2|] eqn:H2; [| |done].
  2:{ intros [= <-]. eapply session_ok_for_in; [exact Hok1|by rewrite H2]. }
  assert (Hok2 : session_ok w2).
  { eapply session_ok_for_in; [exact Hok1|by rewrite H2]. }
  intros H3. by eapply session_ok_for_in.
Qed.

Lemma session_ok_step fuel i w w' :
  session_ok w → final (step fuel i w) = Some w' → session_ok w'.
Proof.
  intros Hok. destruct i as [c k|code|verifier|p|result]; simpl.
  - destruct (call_spec c w) as (r & w1 & Hc & _ & _ & _ & Hr).
    unfold bind. rewrite Hc.
    pose proof (session_ok_call c w r w1 Hok Hc) as Hok1.
    destruct r as [d|]; [|by intros [= <-]].
    destruct (Hr d eq_refl) as [-> Hn]. unfold addBoth.
    destruct (results w1 !! next_id w) eqn:Hres.
    + destruct (session_ok_run_calls k w1 Hok1) as (w2 & Hrun & Hok2).
      rewrite Hrun. by intros [= <-].
    + intros [= <-]. destruct Hok1 as [[H1 H2 H3 H4 H5 H6] Hx].
      split; [|done]. constructor; simpl; try done.
      intros d' Hd'. rewrite lookup_insert_ne by lia. auto.
  - by apply session_ok_got_code.
  - by apply session_ok_got_verifier.
  - by apply session_ok_received.
  - by apply session_ok_closed.
Qed.

Lemma session_ok_run fuel t w w' :
  session_ok w → final (run fuel t w) = Some w' → session_ok w'.
Proof.
  revert w. induction t as [|i t IH]; intros w Hok; simpl.
  - by intros [= <-].
  - destruct (step fuel i w) as [[] w1|e w1|] eqn:Hs; [| |done].
    + apply IH. eapply session_ok_step; [done|by rewrite Hs].
    + assert (Hok1 : session_ok w1).
      { eapply session_ok_step; [done|by rewrite Hs]. }
      destruct (run fuel t w1) as [es w2|e' w2|] eqn:Hr; [| |done].
      * intros [= <-]. apply (IH w1 Hok1). by rewrite Hr.
      * intros [= <-]. apply (IH w1 Hok1). by rewrite Hr.
Qed.

Lemma session_ok_init : session_ok init.
Proof. split; [apply sound_init|by left]. Qed.

(** ** The waiter list and the buffer of the Received channel *)

(** X2. On the Received channel the waiter list and the buffer are never
    both non-empty, in any state a session goes through: [received] buffers
    a payload only when no waiter is listed, and [when_received] registers
    a waiter only when nothing is buffered. *)
Theorem received_waiters_or_buffer (fuel : nat) (t : list Input) (w : World) :
  final (run fuel t init) = Some w →
  _received_observers w = [] ∨ _received_data w = [].
Proof.
  intros Hrun.
  by destruct (session_ok_run fuel t init w session_ok_init Hrun) as [_ Hx].
Qed.

Lemma received_waiters_or_buffer_witness :
  _received_observers (default init (final (run 9
     [IReceived (PStr "m1"); IReceived (PStr "m2");
      IConsumer CWhenReceived [CWhenReceived; CWhenReceived; CWhenReceived];
      IReceived (PStr "m3")] init))) = [] ∨
  _received_data (default init (final (run 9
     [IReceived (PStr "m1"); IReceived (PStr "m2");
      IConsumer CWhenReceived [CWhenReceived; CWhenReceived; CWhenReceived];
      IReceived (PStr "m3")] init))) = [].
Proof.
  apply (received_waiters_or_buffer 9
     [IReceived (PStr "m1"); IReceived (PStr "m2");
      IConsumer CWhenReceived [CWhenReceived; CWhenReceived; CWhenReceived];
      IReceived (PStr "m3")]).
  vm_compute. reflexivity.
Defined.

(** ** A session runs to completion *)

Lemma closed_mono fuel fuel' result w w' :
  closed fuel result w = Ret tt w' → fuel ≤ fuel' →
  closed fuel' result w = Ret tt w'.
Proof.
  unfold closed, bind, modify. intros Hr Hle.
  destruct (for_in fuel _verifier_observers _ 0 (print result w))
    as [[] w1|e w1|] eqn:H1; [|done|done].
  rewrite (for_in_mono _ _ _ _ _ _ _ H1 Hle).
  destruct (for_in fuel _received_observers _ 0 w1)
    as [[] w2|e w2|] eqn:H2; [|done|done].
  rewrite (for_in_mono _ _ _ _ _ _ _ H2 Hle).
  by apply (for_in_mono fuel).
Qed.

Lemma step_mono fuel fuel' i w w' :
  step fuel i w = Ret tt w' → fuel ≤ fuel' → step fuel' i w = Ret tt w'.
Proof.
  destruct i; simpl; intros Hr Hle.
  - done.
  - by eapply got_code_mono.
  - by eapply got_verifier_mono.
  - done.
  - by eapply closed_mono.
Qed.

Lemma run_mono fuel fuel' t w w' :
  run fuel t w = Ret [] w' → fuel ≤ fuel' → run fuel' t w = Ret [] w'.
Proof.
  revert w. induction t as [|i t IH]; intros w; simpl; [done|].
  intros Hr Hle.
  destruct (step fuel i w) as [[] w1|e w1|] eqn:Hs; [| |done].
  - rewrite (step_mono _ _ _ _ _ Hs Hle). by apply IH.
  - by destruct (run fuel t w1).
Qed.

Lemma run_app fuel t1 t2 w w1 :
  run fuel t1 w = Ret [] w1 → run fuel (t1 ++ t2) w = run fuel t2 w1.
Proof.
  revert w. induction t1 as [|i t1 IH]; intros w; simpl.
  - by intros [= <-].
  - destruct (step fuel i w) as [[] w'|e w'|]; [| |done].
    + apply IH.
    + by destruct (run fuel t1 w').
Qed.

Lemma step_total i w :
  wf w → before_close i → ∃ fuel w', step fuel i w = Ret tt w'.
Proof.
  intros Hwf Hi. destruct i as [c k|code|verifier|p|result]; simpl.
  - destruct (call_spec c w) as (r & w1 & Hc & _).
    exists 0. unfold bind. rewrite Hc. destruct r as [d|]; [|by eexists].
    unfold addBoth. destruct (results w1 !! d); [|by eexists].
    destruct (run_calls_spec k w1) as (w2 & Hr & _). by exists w2.
  - destruct (got_code_spec (S (potential w)) code w Hwf) as (w1 & _ & Hg & _);
      [lia|]. by eexists _, _.
  - destruct (got_verifier_spec (S (potential w)) verifier w Hwf)
      as (w1 & _ & Hg & _); [lia|]. by eexists _, _.
  - exists 0. unfold received.
    destruct (_received_observers w) as [|d rest] eqn:Hobs; [by eexists|].
    assert (Hpend : results w !! d = None).
    { apply Hwf, elem_of_waiters. exists ChReceived. simpl. rewrite Hobs.
      by left. }
    destruct (fire_pending d (Success p) (with_received_observers rest w)
                Hpend) as (w' & Hf & _).
    by exists w'.
  - done.
Qed.

Lemma run_total t w :
  wf w → Forall before_close t → ∃ fuel w', run fuel t w = Ret [] w' ∧ wf w'.
Proof.
  intros Hwf Ht. revert w Hwf.
  induction Ht as [|i t Hi Ht IH]; intros w Hwf; simpl.
  - by exists 0, w.
  - destruct (step_total i w Hwf Hi) as (f1 & w1 & Hs).
    destruct (IH w1) as (f2 & w2 & Hr & Hwf2); [by eapply wf_step|].
    exists (f1 `max` f2), w2. split; [|done].
    rewrite (step_mono f1 (f1 `max` f2) i w w1 Hs) by lia.
    apply (run_mono f2); [done|lia].
Qed.

(** X3. A session in which the Boss delivers [closed] last runs to
    completion, for a consumer whose continuations make frontend calls and
    drop the futures these return (the continuations of [Input]).  Whatever
    such a consumer calls and attaches and whatever the Boss delivers
    before closing, no call and no event raises; in the state reached
    before [closed] every Deferred held in an observer list is pending and
    held once, and [closed] then returns as well, without raising. *)
Theorem session_runs_to_completion (t : list Input) (result : PyVal) :
  Forall before_close t →
  ∃ fuel w w',
    run fuel t init = Ret [] w ∧
    (∀ d, d ∈ waiters w → results w !! d = None) ∧ NoDup (waiters w) ∧
    run fuel (t ++ [IClosed result]) init = Ret [] w'.
Proof.
  intros Ht.
  destruct (run_total t init wf_init Ht) as (f & w & Hr & Hwf).
  destruct (closed_spec (S (potential w)) result w Hwf)
    as (_ & _ & w' & _ & _ & _ & Hc & _); [lia|].
  exists (f `max` S (potential w)), w, w'.
  assert (Hr' : run (f `max` S (potential w)) t init = Ret [] w)
    by (apply (run_mono f); [done|lia]).
  split_and!; [done|apply Hwf|apply Hwf|].
  rewrite (run_app _ t [IClosed result] init w Hr'). simpl.
  rewrite (closed_mono (S (potential w)) (f `max` S (potential w))
             result w w' Hc) by lia.
  done.
Qed.

Lemma session_runs_to_completion_witness :
  ∃ fuel w w',
    run fuel [IConsumer CWhenCode [CWhenCode]; IReceived (PStr "m1");
              IConsumer CWhenVerifier [CWhenReceived; CClose];
              IGotVerifier (PStr "v"); IGotCode (PStr "")] init = Ret [] w ∧
    (∀ d, d ∈ waiters w → results w !! d = None) ∧ NoDup (waiters w) ∧
    run fuel ([IConsumer CWhenCode [CWhenCode]; IReceived (PStr "m1");
               IConsumer CWhenVerifier [CWhenReceived; CClose];
               IGotVerifier (PStr "v"); IGotCode (PStr "")]
              ++ [IClosed (PStr "happy")]) init = Ret [] w'.
Proof.
  apply (session_runs_to_completion
           [IConsumer CWhenCode [CWhenCode]; IReceived (PStr "m1");
            IConsumer CWhenVerifier [CWhenReceived; CClose];
            IGotVerifier (PStr "v"); IGotCode (PStr "")] (PStr "happy")).
  by repeat constructor.
Defined.

(** ** Waiters on the Received channel are served in order *)

Lemma received_waiter p (d : Did) rest w :
  wf w → _received_observers w = d :: rest →
  ∃ w', received p w = Ret tt w' ∧ wf w' ∧
        results w' !! d = Some (Success p) ∧
        rest `prefix_of` _received_observers w' ∧
        (∀ d' x, results w !! d' = Some x → results w' !! d' = Some x).
Proof.
  intros Hwf Hobs. pose proof Hwf as [Hs Hp].
  assert (Hin : d ∈ obs ChReceived w) by (simpl; rewrite Hobs; by left).
  assert (Hpend : results w !! d = None).
  { apply Hp, elem_of_waiters. by exists ChReceived. }
  assert (Hlt : d < next_id w) by by eapply obs_lt.
  assert (Hs1 : sound (with_received_observers rest w)).
  { apply (sound_with_obs ChReceived rest w Hs). simpl. rewrite Hobs.
    by apply sublist_cons. }
  destruct (fire_pending d (Success p) (with_received_observers rest w) Hpend)
    as (w' & Hf & Hst & _).
  destruct (fire_sound_evolves d (Success p) _ w' Hs1 Hpend Hlt Hst)
    as (Hs' & He & Hres).
  assert (Hrec : received p w = Ret tt w').
  { unfold received. by rewrite Hobs. }
  exists w'. split_and!; [done|by eapply wf_received|done| |].
  - apply (ev_obs _ _ He ChReceived).
  - intros d' x Hx. by apply (ev_old _ _ He).
Qed.

Lemma serve_waiters (ds extra : list Did) (ms : list PyVal) w :
  wf w → _received_observers w = ds ++ extra → length ms = length ds →
  ∃ w', received_all ms w = Ret tt w' ∧ wf w' ∧
        Forall2 (λ d m, results w' !! d = Some (Success m)) ds ms ∧
        extra `prefix_of` _received_observers w' ∧
        (∀ d' x, results w !! d' = Some x → results w' !! d' = Some x).
Proof.
  revert extra ms w. induction ds as [|d ds IH]; intros extra ms w Hwf Hobs Hlen.
  - destruct ms; [|done]. exists w. simpl in *.
    split_and!; [done|done|constructor|by rewrite Hobs|done].
  - destruct ms as [|m ms]; [done|]. simpl in Hlen.
    destruct (received_waiter m d (ds ++ extra) w Hwf Hobs)
      as (w1 & Hr & Hwf1 & Hres & [x Hx] & Hold).
    destruct (IH (extra ++ x) ms w1 Hwf1) as (w2 & Hall & Hwf2 & HF & Hpre & Hold2);
      [by rewrite Hx, <-app_assoc|lia|].
    exists w2. simpl. unfold bind. rewrite Hr.
    split_and!; [done|done| | |by auto].
    + constructor; [by apply Hold2|done].
    + etrans; [by apply prefix_app_r|done].
Qed.

(** X4. Waiters on the Received channel are served first come, first
    served: in a session not yet closed whose Received waiters are
    [ds ++ extra], as many [received] events as there are waiters in [ds]
    return, the [i]-th waiter of [ds] has been called, once, with the
    [i]-th payload, and the waiters of [extra] are still queued, in the
    same order, at the head of the list. *)
Theorem waiters_served_in_order (ds extra : list Did) (ms : list PyVal)
    (w : World) :
  wf w → _received_observers w = ds ++ extra → length ms = length ds →
  ∃ w',
    received_all ms w = Ret tt w' ∧
    Forall2 (λ d m, results w !! d = None ∧
                    results w' !! d = Some (Success m) ∧
                    times_fired d w' = 1) ds ms ∧
    extra `prefix_of` _received_observers w'.
Proof.
  intros Hwf Hobs Hlen.
  destruct (serve_waiters ds extra ms w Hwf Hobs Hlen)
    as (w' & Hr & Hwf' & HF & Hpre & _).
  exists w'. split_and!; [done| |done].
  apply Forall2_same_length_lookup. split; [by eapply Forall2_length|].
  intros i d m Hd Hm.
  assert (Hres : results w' !! d = Some (Success m))
    by by eapply (Forall2_lookup_lr _ _ _ i d m HF).
  split_and!; [|done|].
  - apply Hwf, elem_of_waiters. exists ChReceived. simpl. rewrite Hobs.
    apply elem_of_app. left. by eapply list_elem_of_lookup_2.
  - eapply times_fired_once; [apply Hwf'|done].
Qed.

Lemma waiters_served_in_order_witness :
  ∃ w',
    received_all [PStr "m1"; PStr "m2"]
      (register ChReceived (register ChReceived (register ChReceived init)))
      = Ret tt w' ∧
    Forall2 (λ d m,
               results (register ChReceived
                          (register ChReceived (register ChReceived init)))
                 !! d = None ∧
               results w' !! d = Some (Success m) ∧
               times_fired d w' = 1) [0; 1] [PStr "m1"; PStr "m2"] ∧
    [2] `prefix_of` _received_observers w'.
Proof.
  apply (waiters_served_in_order [0; 1] [2] [PStr "m1"; PStr "m2"]
           (register ChReceived (register ChReceived (register ChReceived init)))).
  - eapply wf_hsteps; [|exact wf_init].
    do 2 (eapply rtc_l; [apply hs_register|]). apply rtc_once, hs_register.
  - reflexivity.
  - reflexivity.
Defined.

(** ** The Verifier channel *)

Lemma when_verifier_cached w :
  truthy (_verifier w) = true →
  when_verifier w = Ret (next_id w) (succeeded (_verifier w) w).
Proof. intros H. unfold when_verifier. by rewrite H. Qed.


Lemma potential_with_obs ch l w :
  l `sublist_of` obs ch w → potential (with_obs ch l w) ≤ potential w.
Proof.
  intros Hl. unfold potential.
  pose proof (sublist_length _ _ (waiters_with_obs ch l w Hl)).
  replace (total_calls (with_obs ch l w)) with (total_calls w)
    by by destruct ch.
  lia.
Qed.

(** [got_verifier] on a session not yet closed, with the bound on what is
    left to visit afterwards. *)
Lemma got_verifier_bounded fuel verifier w :
  wf w → potential w < fuel →
  ∃ w1,
    got_verifier fuel verifier w = Ret tt (with_verifier_observers [] w1) ∧
    LI ChVerifier [ChCode; ChReceived; ChClosed] (Success verifier)
       (length (_verifier_observers w1)) w1 ∧
    evolves (with_verifier verifier w) w1 ∧
    wf (with_verifier_observers [] w1) ∧
    potential (with_verifier_observers [] w1) ≤ potential w.
Proof.
  intros Hwf Hfuel.
  destruct (got_verifier_spec fuel verifier w Hwf Hfuel)
    as (w1 & Hl & Hg & HLI & He & Hwf1).
  destruct (for_in_fire ChVerifier [ChCode; ChReceived; ChClosed]
              (Success verifier) fuel 0 (with_verifier verifier w))
    as (w1' & Hl' & _ & _ & Hp); [chan_notin|apply wf_LI| |].
  { destruct Hwf as [Hs Hpend]. split; [by apply sound_with_verifier|done]. }
  { change (potential (with_verifier verifier w)) with (potential w). lia. }
  assert (w1' = w1) as ->.
  { change (for_in fuel (obs ChVerifier)
              (λ d, fire d (Success verifier)) 0 (with_verifier verifier w))
      with (for_in fuel _verifier_observers (λ d, callback d verifier) 0
              (with_verifier verifier w)) in Hl'.
    rewrite Hl in Hl'. by injection Hl'. }
  exists w1. split_and!; try done.
  pose proof (potential_with_obs ChVerifier [] w1 (sublist_nil_l _)) as Hp'.
  change (potential (with_verifier verifier w)) with (potential w) in Hp.
  simpl in Hp'. lia.
Qed.



(** X6. A verifier computed again replaces the cached one and notifies
    nobody twice: after [got_verifier v1] and [got_verifier v2], the waiters
    that were pending at the first event keep [v1], each called once, the
    cache holds [v2], and a [when_verifier()] made afterwards returns a
    future already called with [v2] when Python counts [v2] as true. *)
Theorem verifier_recomputed (v1 v2 : PyVal) (fuel : nat) (w : World) :
  wf w → potential w < fuel → truthy v2 = true →
  ∃ w1 w2 w3,
    got_verifier fuel v1 w = Ret tt w1 ∧
    got_verifier fuel v2 w1 = Ret tt w2 ∧
    _verifier w1 = v1 ∧ _verifier w2 = v2 ∧
    (∀ d, d ∈ _verifier_observers w →
       results w1 !! d = Some (Success v1) ∧
       results w2 !! d = Some (Success v1) ∧ times_fired d w2 = 1) ∧
    when_verifier w2 = Ret (next_id w2) w3 ∧
    results w3 !! next_id w2 = Some (Success v2).
Proof.
  intros Hwf Hfuel Hv2.
  destruct (got_verifier_bounded fuel v1 w Hwf Hfuel)
    as (u1 & Hg1 & HLI1 & He1 & Hwf1 & Hp1).
  set (w1 := with_verifier_observers [] u1) in *.
  destruct (got_verifier_bounded fuel v2 w1 Hwf1)
    as (u2 & Hg2 & HLI2 & He2 & Hwf2 & _); [lia|].
  set (w2 := with_verifier_observers [] u2) in *.
  assert (Hc2 : _verifier w2 = v2) by apply (ev_verifier _ _ He2).
  exists w1, w2, (succeeded v2 w2).
  split_and!; [done|done|apply (ev_verifier _ _ He1)|done| | |].
  - intros d Hd.
    assert (Hr1 : results u1 !! d = Some (Success v1)).
    { apply (LI_all ChVerifier _ _ _ _ HLI1).
      eapply elem_of_prefix; [exact Hd|apply (ev_obs _ _ He1 ChVerifier)]. }
    assert (Hr2 : results u2 !! d = Some (Success v1))
      by by apply (ev_old _ _ He2).
    split_and!; [done|done|].
    eapply times_fired_once; [apply Hwf2|done].
  - rewrite when_verifier_cached by by rewrite Hc2. by rewrite Hc2.
  - apply lookup_insert_eq.
Qed.

Lemma verifier_recomputed_witness :
  ∃ w1 w2 w3,
    got_verifier 9 (PStr "v1") four_waiters = Ret tt w1 ∧
    got_verifier 9 (PStr "v2") w1 = Ret tt w2 ∧
    _verifier w1 = PStr "v1" ∧ _verifier w2 = PStr "v2" ∧
    (∀ d, d ∈ _verifier_observers four_waiters →
       results w1 !! d = Some (Success (PStr "v1")) ∧
       results w2 !! d = Some (Success (PStr "v1")) ∧
       times_fired d w2 = 1) ∧
    when_verifier w2 = Ret (next_id w2) w3 ∧
    results w3 !! next_id w2 = Some (Success (PStr "v2")).
Proof.
  apply (verifier_recomputed (PStr "v1") (PStr "v2") 9 four_waiters).
  - exact wf_four_waiters.
  - vm_compute. lia.
  - reflexivity.
Defined.

(** ** What the broadcast events leave alone *)

(** X7. [got_code] and [got_verifier] act on their own channel only: on a
    session not yet closed, [got_code] returns, leaves the cached verifier
    as it was, adds nothing to the buffer, and every waiter of another
    channel is still listed and still pending; likewise [got_verifier],
    which leaves the cached code as it was. *)
Theorem broadcast_leaves_other_channels (code verifier : PyVal) (fuel : nat)
    (w : World) :
  wf w → potential w < fuel →
  (∃ w', got_code fuel code w = Ret tt w' ∧
         _verifier w' = _verifier w ∧
         _received_data w' `suffix_of` _received_data w ∧
         ∀ ch d, ch ≠ ChCode → d ∈ obs ch w →
                 d ∈ obs ch w' ∧ results w' !! d = None) ∧
  (∃ w', got_verifier fuel verifier w = Ret tt w' ∧
         _code w' = _code w ∧
         _received_data w' `suffix_of` _received_data w ∧
         ∀ ch d, ch ≠ ChVerifier → d ∈ obs ch w →
                 d ∈ obs ch w' ∧ results w' !! d = None).
Proof.
  intros Hwf Hfuel. split.
  - destruct (got_code_spec fuel code w Hwf Hfuel)
      as (w1 & _ & Hg & HLI & He & _).
    exists (with_code_observers [] w1).
    split_and!; [done|apply (ev_verifier _ _ He)|apply (ev_data _ _ He)|].
    intros ch d Hne Hd.
    assert (Hin : d ∈ obs ch w1).
    { eapply elem_of_prefix; [exact Hd|apply (ev_obs _ _ He ch)]. }
    split; [by destruct ch|].
    destruct HLI as (_ & _ & _ & Hc). apply (Hc ch); [|done].
    destruct ch; done || chan_in.
  - destruct (got_verifier_spec fuel verifier w Hwf Hfuel)
      as (w1 & _ & Hg & HLI & He & _).
    exists (with_verifier_observers [] w1).
    split_and!; [done|apply (ev_code _ _ He)|apply (ev_data _ _ He)|].
    intros ch d Hne Hd.
    assert (Hin : d ∈ obs ch w1).
    { eapply elem_of_prefix; [exact Hd|apply (ev_obs _ _ He ch)]. }
    split; [by destruct ch|].
    destruct HLI as (_ & _ & _ & Hc). apply (Hc ch); [|done].
    destruct ch; done || chan_in.
Qed.

Lemma broadcast_leaves_other_channels_witness :
  (∃ w', got_code 9 (PStr "code") four_waiters = Ret tt w' ∧
         _verifier w' = _verifier four_waiters ∧
         _received_data w' `suffix_of` _received_data four_waiters ∧
         ∀ ch d, ch ≠ ChCode → d ∈ obs ch four_waiters →
                 d ∈ obs ch w' ∧ results w' !! d = None) ∧
  (∃ w', got_verifier 9 (PStr "v") four_waiters = Ret tt w' ∧
         _code w' = _code four_waiters ∧
         _received_data w' `suffix_of` _received_data four_waiters ∧
         ∀ ch d, ch ≠ ChVerifier → d ∈ obs ch four_waiters →
                 d ∈ obs ch w' ∧ results w' !! d = None).
Proof.
  apply (broadcast_leaves_other_channels (PStr "code") (PStr "v") 9
           four_waiters).
  - exact wf_four_waiters.
  - vm_compute. lia.
Defined.

(** ** Events after [closed] *)

(** X8. [closed] leaves the Deferreds it has called in its lists, so the
    events that come after it fail on them.  When a Verifier waiter was
    pending at closure, a later [got_verifier v] raises
    [AlreadyCalledError] after overwriting the cached verifier and without
    emptying the list.  When a Received waiter was pending at closure, a
    later [received p] raises [AlreadyCalledError] after popping the oldest
    waiter: the payload is neither delivered nor buffered. *)
Theorem events_after_close_raise (result v p : PyVal) (fuel : nat)
    (w : World) :
  wf w → potential w < fuel →
  ∃ w1,
    closed fuel result w = Ret tt w1 ∧
    (_verifier_observers w ≠ [] →
     got_verifier fuel v w1 = Raise AlreadyCalledError (with_verifier v w1)) ∧
    (_received_observers w ≠ [] →
     received p w1
     = Raise AlreadyCalledError
         (with_received_observers (tail (_received_observers w1)) w1)).
Proof.
  intros Hwf Hfuel.
  destruct (closed_spec fuel result w Hwf Hfuel)
    as (w1 & w2 & w3 & _ & _ & _ & Hc & HLI1 & HLI2 & _ & He1 & He2 & He3 & _).
  assert (He23 : evolves w1 w3) by by eapply evolves_trans.
  assert (He03 : evolves w w3) by by eapply evolves_trans.
  exists w3. split_and!; [done| |].
  - intros Hne. destruct (_verifier_observers w) as [|d l] eqn:Hobs; [done|].
    assert (Hd : obs ChVerifier w3 !! 0 = Some d).
    { eapply prefix_lookup_Some; [|apply (ev_obs _ _ He03 ChVerifier)].
      simpl. by rewrite Hobs. }
    assert (Hres : results w3 !! d = Some (Failure (close_error result))).
    { apply (ev_old _ _ He23). apply (LI_all ChVerifier _ _ _ _ HLI1).
      eapply elem_of_prefix; [|apply (ev_obs _ _ He1 ChVerifier)].
      simpl. rewrite Hobs. by left. }
    destruct fuel as [|fuel]; [lia|].
    unfold got_verifier, bind, modify.
    change (for_in (S fuel) _verifier_observers (λ d, callback d v) 0)
      with (for_in (S fuel) (obs ChVerifier) (λ d, fire d (Success v)) 0).
    by rewrite (for_in_called fuel ChVerifier (Success v) 0 d
                  (Failure (close_error result)) (with_verifier v w3)).
  - intros Hne. destruct (_received_observers w) as [|d l] eqn:Hobs; [done|].
    assert (Hd : obs ChReceived w3 !! 0 = Some d).
    { eapply prefix_lookup_Some; [|apply (ev_obs _ _ He03 ChReceived)].
      simpl. by rewrite Hobs. }
    assert (Hres : results w3 !! d = Some (Failure (close_error result))).
    { apply (ev_old _ _ He3). apply (LI_all ChReceived _ _ _ _ HLI2).
      eapply elem_of_prefix; [|apply (ev_obs _ _ He2 ChReceived)].
      eapply elem_of_prefix; [|apply (ev_obs _ _ He1 ChReceived)].
      simpl. rewrite Hobs. by left. }
    simpl in Hd. unfold received.
    destruct (_received_observers w3) as [|d' l'] eqn:Hobs3; [done|].
    injection Hd as ->. simpl. unfold callback.
    by rewrite (fire_called d (Success p) (Failure (close_error result))).
Qed.

Lemma events_after_close_raise_witness :
  ∃ w1,
    closed 9 (PStr "happy") four_waiters = Ret tt w1 ∧
    (_verifier_observers four_waiters ≠ [] →
     got_verifier 9 (PStr "v") w1
     = Raise AlreadyCalledError (with_verifier (PStr "v") w1)) ∧
    (_received_observers four_waiters ≠ [] →
     received (PStr "m") w1
     = Raise AlreadyCalledError
         (with_received_observers (tail (_received_observers w1)) w1)).
Proof.
  apply (events_after_close_raise (PStr "happy") (PStr "v") (PStr "m") 9
           four_waiters).
  - exact wf_four_waiters.
  - vm_compute. lia.
Defined.



(** ** [close] and [closed] *)

(** ** What [closed] has done when it returns, whatever the handlers *)

Lemma run_handler_nil again fuel h w : run_handler again fuel h [] w = Ret tt w.
Proof. by destruct fuel. Qed.

Lemma run_handler_cons again fuel h c k w :
  run_handler again fuel h (c :: k) w =
  match call c w with
  | Ret r w1 =>
      match
        match r with
        | Some d =>
            if again c
            then match results w1 !! d with
                 | Some _ =>
                     match fuel with
                     | 0 => Timeout
                     | S fuel' => run_handler again fuel' h h w1
                     end
                 | None => Ret tt (attach d h w1)
                 end
            else Ret tt w1
        | None => Ret tt w1
        end
      with
      | Ret _ w2 => run_handler again fuel h k w2
      | Raise e w2 => Raise e w2
      | Timeout => Timeout
      end
  | Raise e w1 => Raise e w1
  | Timeout => Timeout
  end.
Proof.
  destruct fuel; simpl; unfold bind; destruct (call c w) as [r w1|e w1|];
    try done; destruct r as [d|]; try done; destruct (again c); done.
Qed.

Lemma sound_attach d k w : sound w → d < next_id w → sound (attach d k w).
Proof.
  intros [H1 H2 H3 H4 H5 H6] Hlt. constructor; simpl; try done.
  intros d' Hd'. rewrite lookup_insert_ne by lia. auto.
Qed.

Lemma evolves_attach d k w : evolves w (attach d k w).
Proof. by constructor; simpl; try done; intros; try left. Qed.

Lemma LI_astep ch chs o j w w' :
  LI ch chs o j w → astep w w' → LI ch chs o j w'.
Proof.
  intros HLI Hst. destruct Hst as [w1 w2 Hst|d k w1 Hlt].
  { eapply LI_hstep; [exact HLI|exact Hst]. }
  destruct HLI as (Hs & Hj & Hi & Hc).
  split_and!; [by apply sound_attach|by destruct ch|..].
  - intros i d'. replace (obs ch (attach d k w1)) with (obs ch w1)
      by by destruct ch. apply Hi.
  - intros c d'. replace (obs c (attach d k w1)) with (obs c w1)
      by by destruct c. apply Hc.
Qed.

Lemma LI_asteps ch chs o j w w' :
  rtc astep w w' → LI ch chs o j w → LI ch chs o j w'.
Proof. induction 1; eauto using LI_astep. Qed.

Lemma asteps_sound_evolves w w' :
  rtc astep w w' → sound w → sound w' ∧ evolves w w'.
Proof.
  induction 1 as [w|w1 w2 w3 H12 H23 IH]; intros Hs.
  - split; [done|apply evolves_refl].
  - assert (sound w2 ∧ evolves w1 w2) as [Hs2 He2].
    { destruct H12 as [u u' Hst|d k u Hlt].
      - split; [by eapply sound_hstep|by apply evolves_hstep].
      - split; [by apply sound_attach|apply evolves_attach]. }
    destruct (IH Hs2) as [Hs3 He]. split; [done|by eapply evolves_trans].
Qed.

Lemma hsteps_asteps w w' : rtc hstep w w' → rtc astep w w'.
Proof. induction 1; [done|]. eapply rtc_l; [by apply as_call|done]. Qed.

Lemma hsteps_next_id w w' : rtc hstep w w' → next_id w ≤ next_id w'.
Proof.
  induction 1 as [|w1 w2 w3 H12 _ IH]; [done|].
  etrans; [|exact IH]. destruct H12 as [| | |c u]; simpl; try lia.
  destruct c; simpl; lia.
Qed.

(** A handler never raises; when it returns, it has made frontend calls and
    queued handlers. *)
Lemma run_handler_asteps again fuel h k w :
  match run_handler again fuel h k w with
  | Ret _ w' => rtc astep w w'
  | Raise _ _ => False
  | Timeout => True
  end.
Proof.
  revert k w. induction fuel as [|fuel IHf]; intros k; induction k as [|c k IHk];
    intros w; rewrite ?run_handler_nil, ?run_handler_cons; try done.
  - destruct (call_spec c w) as (r & w1 & -> & Hst & _ & _ & Hr).
    destruct r as [d|].
    + destruct (Hr d eq_refl) as [-> Hn]. destruct (again c).
      * destruct (results w1 !! next_id w); [done|].
        specialize (IHk (attach (next_id w) h w1)).
        destruct (run_handler again 0 h k _); [|done..].
        etrans; [by apply hsteps_asteps|].
        eapply rtc_l; [|done]. apply as_attach. lia.
      * specialize (IHk w1). destruct (run_handler again 0 h k w1); [|done..].
        etrans; [by apply hsteps_asteps|done].
    + specialize (IHk w1). destruct (run_handler again 0 h k w1); [|done..].
      etrans; [by apply hsteps_asteps|done].
  - destruct (call_spec c w) as (r & w1 & -> & Hst & _ & _ & Hr).
    destruct r as [d|].
    + destruct (Hr d eq_refl) as [-> Hn]. destruct (again c).
      * destruct (results w1 !! next_id w).
        -- specialize (IHf h w1).
           destruct (run_handler again fuel h h w1) as [[] w2|e w2|]; [|done..].
           specialize (IHk w2).
           destruct (run_handler again (S fuel) h k w2); [|done..].
           etrans; [by apply hsteps_asteps|]. by etrans.
        -- specialize (IHk (attach (next_id w) h w1)).
           destruct (run_handler again (S fuel) h k _); [|done..].
           etrans; [by apply hsteps_asteps|].
           eapply rtc_l; [|done]. apply as_attach. lia.
      * specialize (IHk w1).
        destruct (run_handler again (S fuel) h k w1); [|done..].
        etrans; [by apply hsteps_asteps|done].
    + specialize (IHk w1).
      destruct (run_handler again (S fuel) h k w1); [|done..].
      etrans; [by apply hsteps_asteps|done].
Qed.

(** One iteration of a resolving loop, when it returns. *)
Lemma LI_fire_h again fuel ch chs o j (d : Did) w w' :
  ch ∉ chs → LI ch chs o j w → obs ch w !! j = Some d →
  fire_h again fuel d o w = Ret tt w' →
  LI ch chs o (S j) w' ∧ evolves w w'.
Proof.
  intros Hch HLI Hd Hf.
  assert (Hpend : results w !! d = None).
  { destruct HLI as (_ & _ & Hi & _). rewrite (Hi _ _ Hd).
    by rewrite decide_False by lia. }
  assert (Hlt : d < next_id w).
  { eapply obs_lt; [apply HLI|]. by eapply list_elem_of_lookup_2. }
  unfold fire_h in Hf. rewrite Hpend in Hf.
  pose proof (run_handler_asteps again fuel
                (default [] (callbacks w !! d))
                (default [] (callbacks w !! d)) (mark d o w)) as Hst.
  rewrite Hf in Hst. split.
  - eapply LI_asteps; [done|]. by apply LI_mark.
  - eapply evolves_trans; [by apply evolves_mark|].
    eapply asteps_sound_evolves; [done|]. apply sound_mark; [apply HLI|done..].
Qed.

(** A handler does not make a call raise that would not raise without it. *)
Lemma fire_h_raise again fuel (d : Did) o w e w' :
  fire_h again fuel d o w = Raise e w' → results w !! d ≠ None.
Proof.
  unfold fire_h. destruct (results w !! d) eqn:Hd; [done|]. intros Hf.
  pose proof (run_handler_asteps again fuel
                (default [] (callbacks w !! d))
                (default [] (callbacks w !! d)) (mark d o w)) as Hst.
  by rewrite Hf in Hst.
Qed.

(** A resolving loop that returns leaves every Deferred of its list, also
    those appended while it ran, called with [o]. *)
Lemma for_in_fire_h again fuel0 ch chs o fuel j w w' :
  ch ∉ chs → LI ch chs o j w →
  for_in fuel (obs ch) (λ d, fire_h again fuel0 d o) j w = Ret tt w' →
  LI ch chs o (length (obs ch w')) w' ∧ evolves w w'.
Proof.
  intros Hch. revert j w. induction fuel as [|fuel IH]; intros j w HLI Hl;
    [done|].
  simpl in Hl. destruct (obs ch w !! j) as [d|] eqn:Hd.
  - destruct (fire_h again fuel0 d o w) as [[] w1|e w1|] eqn:Hf; [|done..].
    destruct (LI_fire_h again fuel0 ch chs o j d w w1 Hch HLI Hd Hf)
      as [HLI1 He1].
    destruct (IH (S j) w1 HLI1 Hl) as [HLI' He'].
    split; [done|by eapply evolves_trans].
  - injection Hl as <-. apply lookup_ge_None in Hd.
    assert (j = length (obs ch w)) as -> by (destruct HLI as (_&?&_); lia).
    split; [done|apply evolves_refl].
Qed.

Lemma closed_h_spec again fuel result w w3 :
  wf w → closed_h again fuel result w = Ret tt w3 →
  ∃ w1 w2,
    LI ChVerifier [ChReceived; ChClosed; ChCode]
       (Failure (close_error result)) (length (_verifier_observers w1)) w1 ∧
    LI ChReceived [ChClosed; ChCode]
       (Failure (close_error result)) (length (_received_observers w2)) w2 ∧
    LI ChClosed [ChCode] (Success result) (length (_closed_observers w3)) w3 ∧
    evolves w w1 ∧ evolves w1 w2 ∧ evolves w2 w3.
Proof.
  intros Hwf Hc.
  assert (Hwf' : wf (print result w)).
  { destruct Hwf as [Hs Hp]. split; [by apply sound_print|done]. }
  unfold closed_h, bind, modify in Hc.
  destruct (for_in fuel _verifier_observers _ 0 (print result w))
    as [[] w1|e w1|] eqn:Hl1; [|done..].
  destruct (for_in fuel _received_observers _ 0 w1)
    as [[] w2|e w2|] eqn:Hl2; [|done..].
  destruct (for_in_fire_h again fuel ChVerifier [ChReceived; ChClosed; ChCode]
              (Failure (close_error result)) fuel 0 (print result w) w1)
    as [HLI1 He1]; [chan_notin|by apply wf_LI|exact Hl1|].
  destruct (for_in_fire_h again fuel ChReceived [ChClosed; ChCode]
              (Failure (close_error result)) fuel 0 w1 w2)
    as [HLI2 He2]; [chan_notin|by eapply LI_restart|exact Hl2|].
  destruct (for_in_fire_h again fuel ChClosed [ChCode]
              (Success result) fuel 0 w2 w3)
    as [HLI3 He3]; [chan_notin|by eapply LI_restart|exact Hc|].
  exists w1, w2. split_and!; try done.
  eapply evolves_trans; [apply evolves_print|done].
Qed.


Lemma wf_cross_session : wf cross_session.
Proof. apply wf_attach; [apply wf_four_waiters|]. simpl. lia. Qed.



(** X10. [close()] forwards one [close] to the Boss and returns a fresh
    pending future.  Whatever the handlers attached to the futures do, also
    one that attaches itself again to the future it obtains: when the
    [closed(result)] that follows returns, it has called that future with
    [callback(result)], once, whatever [result] is: a [WormholeError] too
    reaches the close future as a success value, not through [errback]. *)
Theorem close_future_gets_result (again : Call → bool) (result : PyVal)
    (fuel : nat) (w w1 w2 : World) (d : Did) :
  wf w → close w = Ret d w1 → closed_h again fuel result w1 = Ret tt w2 →
  d = next_id w ∧
  _boss w1 = _boss w ++ [Boss.close] ∧
  results w1 !! d = None ∧
  results w2 !! d = Some (Success result) ∧
  times_fired d w2 = 1.
Proof.
  intros Hwf Hclose Hclosed.
  assert (Hc : close w
               = Ret (next_id w) (register ChClosed (to_boss Boss.close w)))
    by done.
  rewrite Hc in Hclose. injection Hclose as <- <-.
  set (w1 := register ChClosed (to_boss Boss.close w)) in *.
  assert (Hwf1 : wf w1).
  { eapply wf_hsteps; [|exact Hwf].
    eapply rtc_l; [apply hs_boss|]. apply rtc_once, hs_register. }
  destruct (closed_h_spec again fuel result w1 w2 Hwf1 Hclosed)
    as (u1 & u2 & _ & _ & HLI3 & He1 & He2 & He3).
  assert (Hres : results w2 !! next_id w = Some (Success result)).
  { apply (LI_all ChClosed _ _ _ _ HLI3).
    eapply elem_of_prefix; [|apply (ev_obs _ _ He3 ChClosed)].
    eapply elem_of_prefix; [|apply (ev_obs _ _ He2 ChClosed)].
    eapply elem_of_prefix; [|apply (ev_obs _ _ He1 ChClosed)].
    simpl. apply elem_of_app. right. by left. }
  split_and!; [done|done| |done|].
  - apply (sound_fresh_results w (proj1 Hwf)). simpl. lia.
  - eapply times_fired_once; [apply HLI3|done].
Qed.

Lemma close_future_gets_result_witness :
  next_id cross_session = next_id cross_session ∧
  _boss (register ChClosed (to_boss Boss.close cross_session))
  = _boss cross_session ++ [Boss.close] ∧
  results (register ChClosed (to_boss Boss.close cross_session))
    !! next_id cross_session = None ∧
  results (default init (final
             (closed_h (λ _, true) 9 (PWormholeError "scary")
                (register ChClosed (to_boss Boss.close cross_session)))))
    !! next_id cross_session = Some (Success (PWormholeError "scary")) ∧
  times_fired (next_id cross_session)
    (default init (final
       (closed_h (λ _, true) 9 (PWormholeError "scary")
          (register ChClosed (to_boss Boss.close cross_session))))) = 1.
Proof.
  apply (close_future_gets_result (λ _, true) (PWormholeError "scary") 9
           cross_session
           (register ChClosed (to_boss Boss.close cross_session))).
  - exact wf_cross_session.
  - reflexivity.
  - vm_compute. reflexivity.
Defined.

(** ** The delegated frontend *)

Lemma delegated_run_snoc l i w :
  delegated_run (l ++ [i]) w
  = match i with
    | inl k => delegated_command k (delegated_run l w)
    | inr e => delegated_event e (delegated_run l w)
    end.
Proof. unfold delegated_run. by rewrite foldl_app. Qed.

(** X11. The delegated frontend pushes and never stores: over any
    interleaving of commands and events, also after [closed] has been
    delivered, the delegate has received exactly the events, one call
    each, in the order of arrival, and the Boss exactly the commands, one
    call each, in the order issued; no event reaches the Boss and no
    command reaches the delegate. *)
Theorem delegated_pushes_in_order (l : list (Command + Event))
    (w : _DelegatedWormhole.t) :
  _DelegatedWormhole._delegate (delegated_run l w)
  = _DelegatedWormhole._delegate w ++ (pushed <$> events_of l) ∧
  _DelegatedWormhole._boss (delegated_run l w)
  = _DelegatedWormhole._boss w ++ (forwarded <$> commands_of l) ∧
  length (_DelegatedWormhole._delegate (delegated_run l w))
  = length (_DelegatedWormhole._delegate w) + length (events_of l) ∧
  length (_DelegatedWormhole._boss (delegated_run l w))
  = length (_DelegatedWormhole._boss w) + length (commands_of l).
Proof.
  assert (H : _DelegatedWormhole._delegate (delegated_run l w)
              = _DelegatedWormhole._delegate w ++ (pushed <$> events_of l) ∧
              _DelegatedWormhole._boss (delegated_run l w)
              = _DelegatedWormhole._boss w ++ (forwarded <$> commands_of l)).
  { induction l as [|i l IH] using rev_ind.
    - simpl. by rewrite !app_nil_r.
    - destruct IH as [IHd IHb]. rewrite delegated_run_snoc.
      unfold events_of, commands_of in *. rewrite !omap_app, !fmap_app.
      destruct i as [k|e]; simpl.
      + destruct k; simpl; rewrite IHd, IHb, ?app_nil_r, ?app_assoc; done.
      + destruct e; simpl; rewrite IHd, IHb, ?app_nil_r, ?app_assoc; done. }
  destruct H as [Hd Hb]. split_and!; [done|done| |].
  - by rewrite Hd, length_app, length_fmap.
  - by rewrite Hb, length_app, length_fmap.
Qed.

(** ** Construction *)

(** X12. [delegated_wormhole] never hands out the deferred frontend: it
    raises [AssertionError] on a delegate that Python counts as false, and
    when it returns, the object is a [_DelegatedWormhole] bound to the
    delegate given, which has received nothing yet.  The Boss was given the
    application id, relay and reactor unchanged, each in its own position;
    as timing the caller's timing when Python counts it as true and a new
    [DebugTiming()] otherwise; as journal the caller's journal when Python
    counts it as true and a new [ImmediateJournal()] otherwise, so neither
    is ever missing; as side the hex string of 5 random bytes; and it was
    set on the frontend before being started. *)
Theorem delegated_wormhole_builds_delegated
    (urandom : nat → list Z) (bytes_to_hexstr : list Z → PyVal)
    (appid relay_url reactor delegate tor_manager timing journal stderr
       : PyVal) (b : Built) :
  delegated_wormhole urandom bytes_to_hexstr appid relay_url reactor delegate
    tor_manager timing journal stderr = inl b →
  truthy delegate = true ∧
  built_wormhole b = W_Delegated delegate (_DelegatedWormhole.mk [] []) ∧
  arg_appid (built_boss b) = appid ∧
  arg_relay_url (built_boss b) = relay_url ∧
  arg_reactor (built_boss b) = reactor ∧
  arg_side (built_boss b) = bytes_to_hexstr (urandom 5) ∧
  arg_timing (built_boss b)
  = (if truthy timing then timing else PObject "DebugTiming()") ∧
  arg_journal (built_boss b)
  = (if truthy journal then journal else PObject "ImmediateJournal()") ∧
  truthy (arg_timing (built_boss b)) = true ∧
  truthy (arg_journal (built_boss b)) = true ∧
  built_setup b = [Set_boss; Start].
Proof.
  unfold delegated_wormhole, _wormhole, py_or.
  destruct (truthy delegate) eqn:Hd; [|done]. intros [= <-]. simpl.
  split_and!; try done.
  - by destruct (truthy timing) eqn:Ht.
  - by destruct (truthy journal) eqn:Hj.
Qed.

Lemma delegated_wormhole_builds_delegated_witness :
  truthy (PObject "app") = true ∧
  built_wormhole
    (_wormhole (λ n, replicate n 0%Z) (λ _, PStr "0000000000")
       (PStr "appid") (PStr "ws://relay") (PObject "reactor")
       (PObject "app") PNone PNone (PObject "journal") (PObject "sys.stderr"))
  = W_Delegated (PObject "app") (_DelegatedWormhole.mk [] []) ∧
  arg_appid (built_boss
    (_wormhole (λ n, replicate n 0%Z) (λ _, PStr "0000000000")
       (PStr "appid") (PStr "ws://relay") (PObject "reactor")
       (PObject "app") PNone PNone (PObject "journal") (PObject "sys.stderr")))
  = PStr "appid" ∧
  arg_relay_url (built_boss
    (_wormhole (λ n, replicate n 0%Z) (λ _, PStr "0000000000")
       (PStr "appid") (PStr "ws://relay") (PObject "reactor")
       (PObject "app") PNone PNone (PObject "journal") (PObject "sys.stderr")))
  = PStr "ws://relay" ∧
  arg_reactor (built_boss
    (_wormhole (λ n, replicate n 0%Z) (λ _, PStr "0000000000")
       (PStr "appid") (PStr "ws://relay") (PObject "reactor")
       (PObject "app") PNone PNone (PObject "journal") (PObject "sys.stderr")))
  = PObject "reactor" ∧
  arg_side (built_boss
    (_wormhole (λ n, replicate n 0%Z) (λ _, PStr "0000000000")
       (PStr "appid") (PStr "ws://relay") (PObject "reactor")
       (PObject "app") PNone PNone (PObject "journal") (PObject "sys.stderr")))
  = (λ _, PStr "0000000000") ((λ n, replicate n 0%Z) 5) ∧
  arg_timing (built_boss
    (_wormhole (λ n, replicate n 0%Z) (λ _, PStr "0000000000")
       (PStr "appid") (PStr "ws://relay") (PObject "reactor")
       (PObject "app") PNone PNone (PObject "journal") (PObject "sys.stderr")))
  = (if truthy PNone then PNone else PObject "DebugTiming()") ∧
  arg_journal (built_boss
    (_wormhole (λ n, replicate n 0%Z) (λ _, PStr "0000000000")
       (PStr "appid") (PStr "ws://relay") (PObject "reactor")
       (PObject "app") PNone PNone (PObject "journal") (PObject "sys.stderr")))
  = (if truthy (PObject "journal") then PObject "journal"
     else PObject "ImmediateJournal()") ∧
  truthy (arg_timing (built_boss
    (_wormhole (λ n, replicate n 0%Z) (λ _, PStr "0000000000")
       (PStr "appid") (PStr "ws://relay") (PObject "reactor")
       (PObject "app") PNone PNone (PObject "journal") (PObject "sys.stderr"))))
  = true ∧
  truthy (arg_journal (built_boss
    (_wormhole (λ n, replicate n 0%Z) (λ _, PStr "0000000000")
       (PStr "appid") (PStr "ws://relay") (PObject "reactor")
       (PObject "app") PNone PNone (PObject "journal") (PObject "sys.stderr"))))
  = true ∧
  built_setup
    (_wormhole (λ n, replicate n 0%Z) (λ _, PStr "0000000000")
       (PStr "appid") (PStr "ws://relay") (PObject "reactor")
       (PObject "app") PNone PNone (PObject "journal") (PObject "sys.stderr"))
  = [Set_boss; Start].
Proof.
  apply (delegated_wormhole_builds_delegated
           (λ n, replicate n 0%Z) (λ _, PStr "0000000000")
           (PStr "appid") (PStr "ws://relay") (PObject "reactor")
           (PObject "app") PNone PNone (PObject "journal")
           (PObject "sys.stderr")).
  reflexivity.
Defined.

(** X13. The frontend is chosen by the truth value of the delegate alone,
    and [tor_manager] and [stderr] are accepted and never used:
    [deferred_wormhole] always returns a fresh [_DeferredWormhole];
    [_wormhole] returns one exactly when the delegate counts as false; and
    no constructor's result changes with [tor_manager] or [stderr]. *)
Theorem construction_ignores_tor_and_stderr
    (urandom : nat → list Z) (bytes_to_hexstr : list Z → PyVal)
    (appid relay_url reactor delegate timing journal : PyVal)
    (tor_manager tor_manager' stderr stderr' : PyVal) :
  built_wormhole
    (deferred_wormhole urandom bytes_to_hexstr appid relay_url reactor
       tor_manager timing journal stderr) = W_Deferred init ∧
  (built_wormhole
     (_wormhole urandom bytes_to_hexstr appid relay_url reactor delegate
        tor_manager timing journal stderr) = W_Deferred init
   ↔ truthy delegate = false) ∧
  _wormhole urandom bytes_to_hexstr appid relay_url reactor delegate
    tor_manager timing journal stderr
  = _wormhole urandom bytes_to_hexstr appid relay_url reactor delegate
      tor_manager' timing journal stderr' ∧
  delegated_wormhole urandom bytes_to_hexstr appid relay_url reactor delegate
    tor_manager timing journal stderr
  = delegated_wormhole urandom bytes_to_hexstr appid relay_url reactor
      delegate tor_manager' timing journal stderr' ∧
  deferred_wormhole urandom bytes_to_hexstr appid relay_url reactor
    tor_manager timing journal stderr
  = deferred_wormhole urandom bytes_to_hexstr appid relay_url reactor
      tor_manager' timing journal stderr'.
Proof.
  split_and!; try done.
  unfold _wormhole. simpl. destruct (truthy delegate); split; done.
Qed.
